(** * Blit: packed pixels, alpha-tested row compositing, points and rectangles

    A shallow embedding of [src/blit.hpp] (namespace [Blit]) and the
    properties its specification states about it.

    Conventions of the embedding.
    - A C++ integer of width [w] is a [Z]; every conversion or operation
      that can leave the range is followed by the wrap-around of its type
      ([u16], [u32], [u64] for the unsigned types, [int32] for [int]).
      C++ leaves signed overflow undefined; the model takes the two's
      complement result, and every theorem that depends on the absence of
      overflow says so in a hypothesis.
    - A pixel buffer is a [list Z] (stdpp lookup and insert); an access
      outside the buffer is [Undefined].  The destination and the source
      of a composite are two buffers that do not overlap.
    - Loops whose counter can wrap around take fuel; [Timeout] is the
      result of a run that did not finish within the fuel. *)

From Stdlib Require Import ZArith Lia Bool.
From stdpp Require Import base list.

Local Open Scope Z_scope.

(** ** Machine integers *)

Definition u16 (z : Z) : Z := z mod 2 ^ 16.
Definition u32 (z : Z) : Z := z mod 2 ^ 32.
Definition u64 (z : Z) : Z := z mod 2 ^ 64.
Definition int32 (z : Z) : Z := (z + 2 ^ 31) mod 2 ^ 32 - 2 ^ 31.

Definition is_u16 (z : Z) : Prop := 0 <= z < 2 ^ 16.
Definition is_u32 (z : Z) : Prop := 0 <= z < 2 ^ 32.
Definition is_int (z : Z) : Prop := - 2 ^ 31 <= z < 2 ^ 31.

(** ** Outcomes of a run *)

Inductive outcome (A : Type) : Type :=
| Done (a : A)
| Undefined
| Timeout.

Arguments Done {A} a.
Arguments Undefined {A}.
Arguments Timeout {A}.

Definition bind {A B : Type} (m : outcome A) (k : A -> outcome B) : outcome B :=
  match m with
  | Done a => k a
  | Undefined => Undefined
  | Timeout => Timeout
  end.

Notation "'let*' x ':=' m 'in' k" := (bind m (fun x => k))
  (at level 10, x name, m at level 100, k at level 200).

(** Element access through a pointer into a buffer. *)
Definition read (buf : list Z) (x : Z) : outcome Z :=
  if decide (0 <= x) then
    match buf !! Z.to_nat x with
    | Some v => Done v
    | None => Undefined
    end
  else Undefined.

Definition write (buf : list Z) (x : Z) (v : Z) : outcome (list Z) :=
  if decide (0 <= x < Z.of_nat (length buf))
  then Done (<[Z.to_nat x := v]> buf)
  else Undefined.

(** ** PixelBase *)

(** The template parameters of [PixelBase]; [T_bits] is the width of the
    storage type [T]. *)
Record PixelBase : Type := {
  T_bits : Z;
  alpha_bits : Z; alpha_shift : Z;
  red_bits : Z;   red_shift : Z;
  green_bits : Z; green_shift : Z;
  blue_bits : Z;  blue_shift : Z
}.

(** The two [static_assert]s of the template. *)
Definition static_asserts (P : PixelBase) : Prop :=
  alpha_bits P + red_bits P + green_bits P + blue_bits P <= T_bits P /\
  0 < alpha_bits P /\ 0 < red_bits P /\ 0 < green_bits P /\ 0 < blue_bits P.

Section PixelBase.
Context (P : PixelBase).

(** Conversion to the storage type [T]. *)
Definition to_T (z : Z) : Z := z mod 2 ^ T_bits P.

(** [((1 << bits) - 1) << shift], computed in [int]. *)
Definition field_mask (bits shift : Z) : Z :=
  int32 (Z.shiftl (int32 (int32 (Z.shiftl 1 bits) - 1)) shift).

Definition alpha_mask : Z := to_T (field_mask (alpha_bits P) (alpha_shift P)).

Definition rgb_mask : Z :=
  to_T (Z.lor (Z.lor (field_mask (red_bits P) (red_shift P))
                     (field_mask (green_bits P) (green_shift P)))
              (field_mask (blue_bits P) (blue_shift P))).

(** [operator bool] *)
Definition pixel_bool (pixel : Z) : bool := negb (pixel =? 0).

(** [operator|] and [operator&] *)
Definition pixel_or (pixel pix : Z) : Z := to_T (Z.lor pixel pix).
Definition pixel_and (pixel pix : Z) : Z := to_T (Z.land pixel pix).

(** [set_if_alpha]: the new value of [this->pixel]. *)
Definition set_if_alpha (pixel pix : Z) : Z :=
  if negb (Z.land pix alpha_mask =? 0) then pix else pixel.

(** [ARGB]: [a], [r], [g], [b] are [unsigned]; the result is converted
    to [T] by the constructor. *)
Definition ARGB (a r g b : Z) : Z :=
  let r := Z.shiftr r (u32 (8 - red_bits P)) in
  let g := Z.shiftr g (u32 (8 - green_bits P)) in
  let b := Z.shiftr b (u32 (8 - blue_bits P)) in
  let r := u32 (Z.shiftl r (red_shift P)) in
  let g := u32 (Z.shiftl g (green_shift P)) in
  let b := u32 (Z.shiftl b (blue_shift P)) in
  let a := Z.shiftr a (u32 (8 - alpha_bits P)) in
  let a := u32 (Z.shiftl a (alpha_shift P)) in
  to_T (Z.lor (Z.lor (Z.lor a r) g) b).

(** Scalar [set_line_if_alpha]: [for (unsigned x = 0; x < pix; x++)
    dst[x].set_if_alpha(src[x]);].  The loop is entered at counter [x]
    so that the remainder loop of the SSE2 variant can share it. *)
Fixpoint set_line_loop (fuel : nat) (x pix : Z) (dst src : list Z)
  : outcome (list Z) :=
  match fuel with
  | O => Timeout
  | S fuel' =>
      if x <? pix then
        let* s := read src x in
        let* d := read dst x in
        let* dst' := write dst x (set_if_alpha d s) in
        set_line_loop fuel' (u32 (x + 1)) pix dst' src
      else Done dst
  end.

Definition set_line_if_alpha (fuel : nat) (dst src : list Z) (pix : Z)
  : outcome (list Z) :=
  set_line_loop fuel 0 pix dst src.

(** [std::transform(first, last, first, f)] over the elements
    [first .. first + count) of a buffer. *)
Fixpoint transform (count : nat) (first : Z) (f : Z -> Z) (buf : list Z)
  : outcome (list Z) :=
  match count with
  | O => Done buf
  | S count' =>
      let* v := read buf first in
      let* buf' := write buf first (f v) in
      transform count' (first + 1) f buf'
  end.

(** Scalar [mask_rgb]. *)
Definition mask_rgb (dst : list Z) (size : Z) : outcome (list Z) :=
  transform (Z.to_nat size) 0 (fun pix => pixel_and pix rgb_mask) dst.

End PixelBase.

(** The instantiation used by the program: ARGB1555 in a [uint16_t]. *)
Definition Pixel : PixelBase := {|
  T_bits := 16;
  alpha_bits := 1; alpha_shift := 15;
  red_bits := 5;   red_shift := 10;
  green_bits := 5; green_shift := 5;
  blue_bits := 5;  blue_shift := 0
|}.

(** ** The SSE2 variants

    A [__m128i] is a 128-bit value; for [epi16] operations it holds eight
    16-bit lanes, lane 0 in the low bits (the order of the elements in
    memory on the little-endian target). *)

Definition lanes : list Z := [0; 1; 2; 3; 4; 5; 6; 7].

Definition lane (i : Z) (v : Z) : Z := Z.land (Z.shiftr v (16 * i)) 0xFFFF.

Fixpoint pack (ws : list Z) : Z :=
  match ws with
  | [] => 0
  | w :: ws' => Z.lor (u16 w) (Z.shiftl (pack ws') 16)
  end.

Definition unpack (v : Z) : list Z := (fun i => lane i v) <$> lanes.

Definition _mm_set1_epi16 (w : Z) : Z := pack (replicate 8 w).
Definition _mm_setzero_si128 : Z := 0.
Definition _mm_and_si128 (a b : Z) : Z := Z.land a b.
Definition _mm_or_si128 (a b : Z) : Z := Z.lor a b.
(** [(~a) & b]; [b] has 128 bits, so has the result. *)
Definition _mm_andnot_si128 (a b : Z) : Z := Z.land (Z.lnot a) b.
Definition _mm_cmpeq_epi16 (a b : Z) : Z :=
  pack ((fun i => if lane i a =? lane i b then 0xFFFF else 0) <$> lanes).

(** Unaligned load and store of eight consecutive elements at [buf + x]. *)
Definition _mm_loadu_si128 (buf : list Z) (x : Z) : outcome Z :=
  if decide (0 <= x /\ x + 8 <= Z.of_nat (length buf))
  then Done (pack (take 8 (drop (Z.to_nat x) buf)))
  else Undefined.

Definition _mm_storeu_si128 (buf : list Z) (x : Z) (v : Z) : outcome (list Z) :=
  if decide (0 <= x /\ x + 8 <= Z.of_nat (length buf))
  then Done (take (Z.to_nat x) buf ++ unpack v ++ drop (Z.to_nat x + 8) buf)
  else Undefined.

Section PixelBaseSSE2.
Context (P : PixelBase).

(** The vector loop of [set_line_if_alpha]:
    [for (x = 0; x + 8 < pix; x += 8)], with [x] and [pix] [unsigned].
    It returns the counter with the buffer. *)
Fixpoint set_line_vec_loop (fuel : nat) (x pix : Z) (dst src : list Z)
  : outcome (Z * list Z) :=
  match fuel with
  | O => Timeout
  | S fuel' =>
      if u32 (x + 8) <? pix then
        let mask := _mm_set1_epi16 (to_T P (alpha_mask P)) in
        let* src_vec := _mm_loadu_si128 src x in
        let* dst_vec := _mm_loadu_si128 dst x in
        let noalpha :=
          _mm_cmpeq_epi16 (_mm_and_si128 src_vec mask) _mm_setzero_si128 in
        let res :=
          _mm_or_si128 (_mm_and_si128 noalpha dst_vec)
                       (_mm_andnot_si128 noalpha src_vec) in
        let* dst' := _mm_storeu_si128 dst x res in
        set_line_vec_loop fuel' (u32 (x + 8)) pix dst' src
      else Done (x, dst)
  end.

Definition set_line_if_alpha_sse2 (fuel : nat) (dst src : list Z) (pix : Z)
  : outcome (list Z) :=
  let* r := set_line_vec_loop fuel 0 pix dst src in
  set_line_loop P fuel (fst r) pix (snd r) src.

(** The vector loop of [mask_rgb]:
    [for (x = 0; x + 8 < size; x += 8)], with [x] [unsigned] and [size]
    a [std::size_t]: the sum is taken in [unsigned]. *)
Fixpoint mask_rgb_vec_loop (fuel : nat) (x size : Z) (dst : list Z)
  : outcome (Z * list Z) :=
  match fuel with
  | O => Timeout
  | S fuel' =>
      if u32 (x + 8) <? size then
        let mask := _mm_set1_epi16 (to_T P (rgb_mask P)) in
        let* v := _mm_loadu_si128 dst x in
        let* dst' := _mm_storeu_si128 dst x (_mm_and_si128 v mask) in
        mask_rgb_vec_loop fuel' (u32 (x + 8)) size dst'
      else Done (x, dst)
  end.

Definition mask_rgb_sse2 (fuel : nat) (dst : list Z) (size : Z)
  : outcome (list Z) :=
  let* r := mask_rgb_vec_loop fuel 0 size dst in
  transform (Z.to_nat (size - fst r)) (fst r)
            (fun pix => pixel_and P pix (rgb_mask P)) (snd r).

End PixelBaseSSE2.

(** ** Pos *)

Record Pos : Type := { Pos_x : Z; Pos_y : Z }.

(** A [Pos] of the program holds two [int]s. *)
Definition Pos_wf (p : Pos) : Prop := is_int (Pos_x p) /\ is_int (Pos_y p).

(** [operator==] *)
Definition Pos_eqb (p pos : Pos) : bool :=
  (Pos_x p =? Pos_x pos) && (Pos_y p =? Pos_y pos).

(** The 64-bit key built in [operator<]:
    [k = (uint32_t) x; k <<= 32; k |= (uint32_t) y;] *)
Definition Pos_key (p : Pos) : Z :=
  let self := u32 (Pos_x p) in
  let self := u64 (Z.shiftl self 32) in
  u64 (Z.lor self (u32 (Pos_y p))).

(** [operator<] *)
Definition Pos_lt (p pos : Pos) : bool := Pos_key p <? Pos_key pos.

(** ** Rect *)

Record Rect : Type := { Rect_pos : Pos; Rect_w : Z; Rect_h : Z }.

Definition Rect_wf (r : Rect) : Prop :=
  Pos_wf (Rect_pos r) /\ is_int (Rect_w r) /\ is_int (Rect_h r).

Definition Rect_x (r : Rect) : Z := Pos_x (Rect_pos r).
Definition Rect_y (r : Rect) : Z := Pos_y (Rect_pos r).

(** [std::max] and [std::min] *)
Definition std_max (a b : Z) : Z := if a <? b then b else a.
Definition std_min (a b : Z) : Z := if b <? a then b else a.

(** The canonical empty rectangle [{{0, 0}, 0, 0}]. *)
Definition Rect_empty : Rect :=
  {| Rect_pos := {| Pos_x := 0; Pos_y := 0 |}; Rect_w := 0; Rect_h := 0 |}.

(** [operator&]: intersection. *)
Definition Rect_and (r rect : Rect) : Rect :=
  let x_left := std_max (Rect_x r) (Rect_x rect) in
  let x_right := std_min (int32 (Rect_x r + Rect_w r))
                         (int32 (Rect_x rect + Rect_w rect)) in
  let width := int32 (x_right - x_left) in
  let y_top := std_max (Rect_y r) (Rect_y rect) in
  let y_bottom := std_min (int32 (Rect_y r + Rect_h r))
                          (int32 (Rect_y rect + Rect_h rect)) in
  let height := int32 (y_bottom - y_top) in
  if (width <=? 0) || (height <=? 0)
  then Rect_empty
  else {| Rect_pos := {| Pos_x := x_left; Pos_y := y_top |};
          Rect_w := width; Rect_h := height |}.

(** [operator bool] *)
Definition Rect_bool (r : Rect) : bool := (0 <? Rect_w r) && (0 <? Rect_h r).

Definition mkRect (x y w h : Z) : Rect :=
  {| Rect_pos := {| Pos_x := x; Pos_y := y |}; Rect_w := w; Rect_h := h |}.

(** ** The specification's vocabulary *)

(** The per-element result of the alpha test, in the words of the
    specification: the source pixel where its alpha bits are not all zero,
    the destination pixel otherwise. *)
Definition composite_pixel (P : PixelBase) (d s : Z) : Z :=
  if decide (Z.land s (alpha_mask P) <> 0) then s else d.

(** Extraction of a channel from a packed pixel by mask and shift. *)
Definition channel (P : PixelBase) (bits shift : Z) (pixel : Z) : Z :=
  Z.shiftr (Z.land pixel (to_T P (field_mask bits shift))) shift.

(** The edges of the intersection, over the integers. *)
Definition isect_left (A B : Rect) : Z := Z.max (Rect_x A) (Rect_x B).
Definition isect_right (A B : Rect) : Z :=
  Z.min (Rect_x A + Rect_w A) (Rect_x B + Rect_w B).
Definition isect_top (A B : Rect) : Z := Z.max (Rect_y A) (Rect_y B).
Definition isect_bottom (A B : Rect) : Z :=
  Z.min (Rect_y A + Rect_h A) (Rect_y B + Rect_h B).

(** The intersection as the specification words it. *)
Definition intersection (A B : Rect) : Rect :=
  if decide (isect_right A B - isect_left A B <= 0 \/
             isect_bottom A B - isect_top A B <= 0)
  then Rect_empty
  else mkRect (isect_left A B) (isect_top A B)
              (isect_right A B - isect_left A B)
              (isect_bottom A B - isect_top A B).

(** The four edge sums are representable in [int]. *)
Definition edge_sums_fit (A B : Rect) : Prop :=
  is_int (Rect_x A + Rect_w A) /\ is_int (Rect_x B + Rect_w B) /\
  is_int (Rect_y A + Rect_h A) /\ is_int (Rect_y B + Rect_h B).

(** The two extents of the overlap are representable in [int]. *)
Definition extents_fit (A B : Rect) : Prop :=
  is_int (isect_right A B - isect_left A B) /\
  is_int (isect_bottom A B - isect_top A B).

(** [r] lies inside [A]. *)
Definition inside (r A : Rect) : Prop :=
  Rect_x A <= Rect_x r /\ Rect_x r + Rect_w r <= Rect_x A + Rect_w A /\
  Rect_y A <= Rect_y r /\ Rect_y r + Rect_h r <= Rect_y A + Rect_h A.

(** The lexicographic order on the signed coordinates. *)
Definition lex_lt (p q : Pos) : bool :=
  (Pos_x p <? Pos_x q) || ((Pos_x p =? Pos_x q) && (Pos_y p <? Pos_y q)).

Definition mkPos (x y : Z) : Pos := {| Pos_x := x; Pos_y := y |}.

(** ** The rest of Pos and Rect *)

(** [operator!=] *)
Definition Pos_neqb (p pos : Pos) : bool := negb (Pos_eqb p pos).

(** [operator+], [operator-] and [operator*] on two points ([operator+=],
    [operator-=] and [operator*=] give [*this] the same value);
    component-wise, in [int]. *)
Definition Pos_add (p pos : Pos) : Pos :=
  {| Pos_x := int32 (Pos_x p + Pos_x pos); Pos_y := int32 (Pos_y p + Pos_y pos) |}.

Definition Pos_sub (p pos : Pos) : Pos :=
  {| Pos_x := int32 (Pos_x p - Pos_x pos); Pos_y := int32 (Pos_y p - Pos_y pos) |}.

Definition Pos_mul (p pos : Pos) : Pos :=
  {| Pos_x := int32 (Pos_x p * Pos_x pos); Pos_y := int32 (Pos_y p * Pos_y pos) |}.

(** The [int] division [a / b]: it truncates toward zero, and is
    undefined for [b = 0] and for [INT_MIN / -1]. *)
Definition int_div (a b : Z) : outcome Z :=
  if b =? 0 then Undefined
  else if (a =? - 2 ^ 31) && (b =? -1) then Undefined
  else Done (Z.quot a b).

(** [operator/] by an [int] (and [operator/=]). *)
Definition Pos_div (p : Pos) (div : Z) : outcome Pos :=
  let* x := int_div (Pos_x p) div in
  let* y := int_div (Pos_y p) div in
  Done {| Pos_x := x; Pos_y := y |}.

(** The unary [operator-] and [operator*(int scale, Pos pos)]. *)
Definition Pos_neg (pos : Pos) : Pos :=
  {| Pos_x := int32 (- Pos_x pos); Pos_y := int32 (- Pos_y pos) |}.

Definition Pos_scale (scale : Z) (pos : Pos) : Pos :=
  {| Pos_x := int32 (scale * Pos_x pos); Pos_y := int32 (scale * Pos_y pos) |}.

(** [Rect::operator+] and [Rect::operator-] (and [+=], [-=]): the origin
    moves, the extents stay. *)
Definition Rect_add (r : Rect) (pos : Pos) : Rect :=
  {| Rect_pos := Pos_add (Rect_pos r) pos; Rect_w := Rect_w r; Rect_h := Rect_h r |}.

Definition Rect_sub (r : Rect) (pos : Pos) : Rect :=
  {| Rect_pos := Pos_sub (Rect_pos r) pos; Rect_w := Rect_w r; Rect_h := Rect_h r |}.

(** ** More vocabulary *)

(** The pixel [(px, py)] lies in the region [r] describes: the columns
    [x .. x + w - 1] and the rows [y .. y + h - 1]. *)
Definition covers (r : Rect) (px py : Z) : Prop :=
  Rect_x r <= px < Rect_x r + Rect_w r /\ Rect_y r <= py < Rect_y r + Rect_h r.

(** Coordinates and extents below [2^29] in absolute value: far from the
    ends of [int]. *)
Definition is_small (z : Z) : Prop := - 2 ^ 29 <= z < 2 ^ 29.

Definition Pos_small (p : Pos) : Prop := is_small (Pos_x p) /\ is_small (Pos_y p).

Definition Rect_small (r : Rect) : Prop :=
  Pos_small (Rect_pos r) /\ is_small (Rect_w r) /\ is_small (Rect_h r).

(** The sum and the difference of two points over the integers. *)
Definition Pos_plus (p q : Pos) : Pos := mkPos (Pos_x p + Pos_x q) (Pos_y p + Pos_y q).
Definition Pos_minus (p q : Pos) : Pos := mkPos (Pos_x p - Pos_x q) (Pos_y p - Pos_y q).

(** The alpha test of [set_if_alpha] on one pixel. *)
Definition has_alpha (P : PixelBase) (pix : Z) : Prop := Z.land pix (alpha_mask P) <> 0.

(** ** Proof tactics *)

(** Closed facts about concrete integers, by evaluation. *)
Ltac by_eval := vm_compute; repeat split; congruence.


(** * Properties *)

(** ** Sanity checks of the embedding on concrete inputs *)

Example Pixel_static_asserts : static_asserts Pixel.
Proof. unfold static_asserts; simpl; lia. Qed.

Example Pixel_alpha_mask : alpha_mask Pixel = 0x8000.
Proof. reflexivity. Qed.

Example Pixel_rgb_mask : rgb_mask Pixel = 0x7FFF.
Proof. reflexivity. Qed.

Example ARGB_white : ARGB Pixel 255 255 255 255 = 0xFFFF.
Proof. reflexivity. Qed.

Example set_line_small :
  set_line_if_alpha Pixel 10 [1; 2; 3] [0x8005; 7; 0x8000] 3 = Done [0x8005; 2; 0x8000].
Proof. reflexivity. Qed.

Example mask_rgb_small :
  mask_rgb Pixel [0xFFFF; 0x8001; 3] 3 = Done [0x7FFF; 1; 3].
Proof. reflexivity. Qed.

Example set_line_sse2_small :
  set_line_if_alpha_sse2 Pixel 20
    [1; 2; 3; 4; 5; 6; 7; 8; 9; 10]
    [0x8005; 7; 0x8000; 0; 0xFFFF; 1; 2; 3; 0x8009; 4] 10
  = Done [0x8005; 2; 0x8000; 4; 0xFFFF; 6; 7; 8; 0x8009; 10].
Proof. reflexivity. Qed.

Example mask_rgb_sse2_small :
  mask_rgb_sse2 Pixel 20 [0xFFFF; 0x8001; 3; 4; 5; 6; 7; 0x8008; 0x9009; 10] 10
  = Done [0x7FFF; 1; 3; 4; 5; 6; 7; 8; 0x1009; 10].
Proof. reflexivity. Qed.

Example Pos_lt_1_5_2_1 : Pos_lt (mkPos 1 5) (mkPos 2 1) = true.
Proof. reflexivity. Qed.

Example Rect_and_disjoint :
  Rect_and (mkRect 0 0 4 4) (mkRect 10 10 4 4) = Rect_empty.
Proof. reflexivity. Qed.

Example Rect_and_overlap :
  Rect_and (mkRect 0 0 10 10) (mkRect 5 5 10 10) = mkRect 5 5 5 5.
Proof. reflexivity. Qed.

(** ** Machine integers *)

Lemma int32_id z : is_int z -> int32 z = z.
Proof.
  unfold is_int, int32. intros Hz.
  rewrite Z.mod_small by lia. lia.
Qed.

Lemma int32_range z : is_int (int32 z).
Proof.
  unfold is_int, int32.
  pose proof (Z.mod_pos_bound (z + 2 ^ 31) (2 ^ 32) ltac:(lia)). lia.
Qed.

(** Adding and then subtracting the same [int] gives the other operand
    back, also when the sum wraps around. *)
Lemma int32_add_sub x w : is_int w -> int32 (int32 (x + w) - x) = w.
Proof.
  intros Hw. unfold int32.
  replace ((x + w + 2 ^ 31) mod 2 ^ 32 - 2 ^ 31 - x + 2 ^ 31)
    with ((x + w + 2 ^ 31) mod 2 ^ 32 - x) by lia.
  rewrite Zminus_mod_idemp_l.
  replace (x + w + 2 ^ 31 - x) with (w + 2 ^ 31) by lia.
  unfold is_int in Hw. rewrite Z.mod_small by lia. lia.
Qed.

Lemma u32_id z : is_u32 z -> u32 z = z.
Proof. unfold is_u32, u32. intros Hz. apply Z.mod_small. lia. Qed.

Lemma u32_range z : is_u32 (u32 z).
Proof. unfold is_u32, u32. apply Z.mod_pos_bound. lia. Qed.

(** The conversion of an [int] to [uint32_t]. *)
Lemma u32_of_int z :
  is_int z -> u32 z = if decide (z < 0) then z + 2 ^ 32 else z.
Proof.
  unfold is_int, u32. intros Hz. case_decide.
  - rewrite <- (Z.mod_add z 1 (2 ^ 32)) by lia.
    rewrite Z.mod_small by lia. lia.
  - apply Z.mod_small. lia.
Qed.

Lemma std_max_spec a b : std_max a b = Z.max a b.
Proof. unfold std_max. destruct (Z.ltb_spec a b); lia. Qed.

Lemma std_min_spec a b : std_min a b = Z.min a b.
Proof. unfold std_min. destruct (Z.ltb_spec b a); lia. Qed.

(** ** Rect *)

Section RectAnd.
Variables A B : Rect.

(** What [operator&] computes when nothing overflows. *)
Lemma Rect_and_no_overflow :
  edge_sums_fit A B -> extents_fit A B -> Rect_and A B = intersection A B.
Proof.
  intros (Hxa & Hxb & Hya & Hyb) [Hw Hh].
  unfold Rect_and, intersection.
  rewrite !std_max_spec, !(int32_id (_ + _)), !std_min_spec by assumption.
  fold (isect_left A B) (isect_right A B) (isect_top A B) (isect_bottom A B).
  rewrite !int32_id by assumption.
  case_decide as Hd.
  - destruct Hd as [Hd | Hd].
    + apply Z.leb_le in Hd. now rewrite Hd.
    + apply Z.leb_le in Hd. rewrite Hd. now rewrite orb_true_r.
  - destruct (Z.leb_spec (isect_right A B - isect_left A B) 0); [lia |].
    destruct (Z.leb_spec (isect_bottom A B - isect_top A B) 0); [lia |].
    reflexivity.
Qed.

(** The two branches of [operator&]. *)
Lemma Rect_and_cases :
  Rect_and A B = Rect_empty \/
  (0 < Rect_w (Rect_and A B) /\ 0 < Rect_h (Rect_and A B)).
Proof.
  unfold Rect_and.
  match goal with |- context [(?w <=? 0) || (?h <=? 0)] =>
    destruct (Z.leb_spec w 0); [now left |];
    destruct (Z.leb_spec h 0); [now left |]
  end.
  right. simpl. lia.
Qed.
End RectAnd.

(** C3 (as amended): when the four edge sums and the two extents
    [right - left] and [bottom - top] are representable in [int], [A & B] is
    the canonical empty rectangle if [right - left <= 0] or
    [bottom - top <= 0], and [{(left, top), right - left, bottom - top}]
    otherwise, for [left = max(A.x, B.x)], [right = min(A.x+A.w, B.x+B.w)],
    [top = max(A.y, B.y)], [bottom = min(A.y+A.h, B.y+B.h)]. *)
Theorem Rect_and_intersection (A B : Rect) :
  edge_sums_fit A B -> extents_fit A B ->
  Rect_and A B =
    if decide (isect_right A B - isect_left A B <= 0 \/
               isect_bottom A B - isect_top A B <= 0)
    then Rect_empty
    else {| Rect_pos := {| Pos_x := isect_left A B; Pos_y := isect_top A B |};
            Rect_w := isect_right A B - isect_left A B;
            Rect_h := isect_bottom A B - isect_top A B |}.
Proof. apply Rect_and_no_overflow. Qed.

Lemma Rect_and_intersection_witness :
  edge_sums_fit (mkRect 0 0 10 10) (mkRect 5 5 10 10) /\
  extents_fit (mkRect 0 0 10 10) (mkRect 5 5 10 10) /\
  Rect_and (mkRect 0 0 10 10) (mkRect 5 5 10 10) = mkRect 5 5 5 5.
Proof.
  assert (He : edge_sums_fit (mkRect 0 0 10 10) (mkRect 5 5 10 10)) by by_eval.
  assert (Hx : extents_fit (mkRect 0 0 10 10) (mkRect 5 5 10 10)) by by_eval.
  split; [exact He | split; [exact Hx |]].
  rewrite (Rect_and_intersection _ _ He Hx). reflexivity.
Defined.

(** C3 as stated fails: with only the edge sums representable, the
    subtraction [right - left] can still leave the range of [int].  Two
    disjoint 1x1 rectangles at the two ends of the x axis give a non-empty
    result. *)
Lemma Rect_and_edge_sums_not_enough :
  ~ (forall A B : Rect,
       Rect_wf A -> Rect_wf B -> edge_sums_fit A B ->
       Rect_and A B = intersection A B).
Proof.
  intros H.
  assert (Hcode : Rect_and (mkRect 2147483646 0 1 1) (mkRect (-2147483648) 0 1 1)
                  = mkRect 2147483646 0 3 1) by reflexivity.
  assert (Hspec : intersection (mkRect 2147483646 0 1 1) (mkRect (-2147483648) 0 1 1)
                  = Rect_empty) by reflexivity.
  rewrite H in Hcode.
  - rewrite Hspec in Hcode. discriminate Hcode.
  - by_eval.
  - by_eval.
  - by_eval.
Qed.

(** C5: the rectangle returned by [A & B] never has a negative width or
    height; this holds for all operands, in particular for those whose edge
    sums do not overflow. *)
Theorem Rect_and_extents_nonneg (A B : Rect) :
  0 <= Rect_w (Rect_and A B) /\ 0 <= Rect_h (Rect_and A B).
Proof.
  destruct (Rect_and_cases A B) as [-> | [Hw Hh]]; simpl; lia.
Qed.

(** C6 (as amended): [A & A = A] for every non-empty rectangle [A] (one
    with [w > 0] and [h > 0]), and an empty [A] is sent to the canonical
    empty rectangle; for every [A] whose edge sums are representable in
    [int], intersecting [A] with the canonical empty rectangle, on either
    side, yields the canonical empty rectangle. *)
Theorem Rect_and_idempotent_nonempty (A : Rect) :
  Rect_wf A ->
  (Rect_bool A = true -> Rect_and A A = A) /\
  (Rect_bool A = false -> Rect_and A A = Rect_empty) /\
  (is_int (Rect_x A + Rect_w A) -> is_int (Rect_y A + Rect_h A) ->
   Rect_and A Rect_empty = Rect_empty /\ Rect_and Rect_empty A = Rect_empty).
Proof.
  intros ([Hpx Hpy] & Hw & Hh). fold (Rect_x A) in Hpx. fold (Rect_y A) in Hpy.
  assert (Hself : Rect_and A A =
                  if (Rect_w A <=? 0) || (Rect_h A <=? 0) then Rect_empty else A).
  { unfold Rect_and. rewrite !std_max_spec, !std_min_spec, !Z.max_id, !Z.min_id.
    rewrite !int32_add_sub by assumption.
    destruct A as [[x y] w h]; reflexivity. }
  split; [| split].
  - unfold Rect_bool. intros Hb. apply andb_true_iff in Hb as [H1 H2].
    apply Z.ltb_lt in H1, H2. rewrite Hself.
    destruct (Z.leb_spec (Rect_w A) 0); [lia |].
    destruct (Z.leb_spec (Rect_h A) 0); [lia |]. reflexivity.
  - unfold Rect_bool. intros Hb. rewrite Hself.
    apply andb_false_iff in Hb as [Hb | Hb]; apply Z.ltb_ge in Hb.
    + destruct (Z.leb_spec (Rect_w A) 0); [reflexivity | lia].
    + destruct (Z.leb_spec (Rect_h A) 0); [now rewrite orb_true_r | lia].
  - intros Hx Hy.
    assert (Hl : Rect_and A Rect_empty = Rect_empty).
    { unfold Rect_and. rewrite !std_max_spec, !(int32_id (_ + _)) by assumption.
      change (Rect_x Rect_empty) with 0. change (Rect_w Rect_empty) with 0.
      change (int32 (0 + 0)) with 0. rewrite std_min_spec.
      unfold is_int in *.
      rewrite (int32_id (Z.min _ 0 - _)) by (unfold is_int; lia).
      destruct (Z.leb_spec (Z.min (Rect_x A + Rect_w A) 0 - Z.max (Rect_x A) 0) 0);
        [reflexivity | lia]. }
    assert (Hr : Rect_and Rect_empty A = Rect_empty).
    { unfold Rect_and. rewrite !std_max_spec, !(int32_id (_ + Rect_w A)) by assumption.
      change (Rect_x Rect_empty) with 0. change (Rect_w Rect_empty) with 0.
      change (int32 (0 + 0)) with 0. rewrite std_min_spec.
      unfold is_int in *.
      rewrite (int32_id (Z.min 0 _ - _)) by (unfold is_int; lia).
      destruct (Z.leb_spec (Z.min 0 (Rect_x A + Rect_w A) - Z.max 0 (Rect_x A)) 0);
        [reflexivity | lia]. }
    now split.
Qed.

Lemma Rect_and_idempotent_nonempty_witness :
  Rect_wf (mkRect 3 4 5 6) /\
  Rect_and (mkRect 3 4 5 6) (mkRect 3 4 5 6) = mkRect 3 4 5 6 /\
  Rect_and (mkRect 3 4 5 6) Rect_empty = Rect_empty.
Proof.
  assert (Hwf : Rect_wf (mkRect 3 4 5 6)) by by_eval.
  destruct (Rect_and_idempotent_nonempty (mkRect 3 4 5 6) Hwf) as (Hi & _ & He).
  split; [exact Hwf | split].
  - apply Hi. reflexivity.
  - apply He; by_eval.
Defined.

(** C6 as stated fails: an empty rectangle away from the origin is not a
    fixed point of the intersection with itself; [operator&] sends it to
    [{(0,0),0,0}]. *)
Lemma Rect_and_not_idempotent_on_empty :
  Rect_and (mkRect 1 2 0 0) (mkRect 1 2 0 0) <> mkRect 1 2 0 0.
Proof. discriminate. Qed.

(** C10 (as amended): when the four edge sums and the two extents
    [right - left], [bottom - top] are representable in [int] and [A & B] is
    non-empty, the result lies inside both [A] and [B]. *)
Theorem Rect_and_inside (A B : Rect) :
  edge_sums_fit A B -> extents_fit A B ->
  Rect_bool (Rect_and A B) = true ->
  inside (Rect_and A B) A /\ inside (Rect_and A B) B.
Proof.
  intros He Hx. rewrite (Rect_and_no_overflow A B He Hx).
  unfold intersection. case_decide as Hd.
  - discriminate.
  - intros _. unfold inside, mkRect, Rect_x, Rect_y; simpl.
    unfold isect_left, isect_right, isect_top, isect_bottom, Rect_x, Rect_y.
    lia.
Qed.

Lemma Rect_and_inside_witness :
  Rect_bool (Rect_and (mkRect 0 0 10 10) (mkRect 5 5 10 10)) = true /\
  inside (Rect_and (mkRect 0 0 10 10) (mkRect 5 5 10 10)) (mkRect 0 0 10 10) /\
  inside (Rect_and (mkRect 0 0 10 10) (mkRect 5 5 10 10)) (mkRect 5 5 10 10).
Proof.
  split; [reflexivity |].
  apply (Rect_and_inside (mkRect 0 0 10 10) (mkRect 5 5 10 10));
    [by_eval | by_eval | reflexivity].
Defined.

(** C10 as stated fails: with only the edge sums representable, two
    disjoint 1x1 rectangles at the two ends of the x axis intersect in a
    non-empty rectangle, three wide, that sticks out of both. *)
Lemma Rect_and_not_inside :
  ~ (forall A B : Rect,
       Rect_wf A -> Rect_wf B -> edge_sums_fit A B ->
       Rect_bool (Rect_and A B) = true ->
       inside (Rect_and A B) A /\ inside (Rect_and A B) B).
Proof.
  intros H.
  destruct (H (mkRect 2147483646 0 1 1) (mkRect (-2147483648) 0 1 1))
    as [(_ & Hout & _) _]; [by_eval | by_eval | by_eval | reflexivity |].
  vm_compute in Hout. congruence.
Qed.

(** ** Pos *)

(** A field shifted above a narrower one: or-ing is adding. *)
Lemma lor_shiftl_add a b n :
  0 <= n -> 0 <= b < 2 ^ n -> Z.lor (Z.shiftl a n) b = a * 2 ^ n + b.
Proof.
  intros Hn Hb.
  pose proof (Z.add_lor_land (Z.shiftl a n) b) as Hsum.
  rewrite Z.shiftl_mul_pow2 in * by lia.
  assert (Hdisj : Z.land (a * 2 ^ n) b = 0).
  { apply Z.bits_inj'. intros k Hk.
    rewrite Z.land_spec, Z.bits_0.
    destruct (Z.lt_ge_cases k n) as [Hlt | Hge].
    - rewrite Z.mul_pow2_bits_low by lia. reflexivity.
    - rewrite <- (Z.mod_small b (2 ^ n)) by lia.
      rewrite Z.mod_pow2_bits_high by lia. apply andb_false_r. }
  lia.
Qed.

(** The key has [x] in its high and [y] in its low 32 bits. *)
Lemma Pos_key_arith p : Pos_key p = u32 (Pos_x p) * 2 ^ 32 + u32 (Pos_y p).
Proof.
  unfold Pos_key.
  pose proof (u32_range (Pos_x p)) as Hx. pose proof (u32_range (Pos_y p)) as Hy.
  unfold is_u32 in Hx, Hy.
  assert (Hhi : u64 (Z.shiftl (u32 (Pos_x p)) 32) = Z.shiftl (u32 (Pos_x p)) 32).
  { unfold u64. rewrite Z.shiftl_mul_pow2 by lia. apply Z.mod_small. lia. }
  rewrite Hhi, lor_shiftl_add by lia.
  unfold u64. apply Z.mod_small. lia.
Qed.

Lemma u32_inj_int a b : is_int a -> is_int b -> u32 a = u32 b -> a = b.
Proof.
  intros Ha Hb. rewrite !u32_of_int by assumption.
  unfold is_int in *. repeat case_decide; lia.
Qed.

Lemma Pos_key_inj p q : Pos_wf p -> Pos_wf q -> Pos_key p = Pos_key q -> p = q.
Proof.
  intros [Hpx Hpy] [Hqx Hqy]. rewrite !Pos_key_arith. intros Hk.
  pose proof (u32_range (Pos_x p)) as H1. pose proof (u32_range (Pos_y p)) as H2.
  pose proof (u32_range (Pos_x q)) as H3. pose proof (u32_range (Pos_y q)) as H4.
  unfold is_u32 in *.
  assert (Hx : u32 (Pos_x p) = u32 (Pos_x q)) by lia.
  assert (Hy : u32 (Pos_y p) = u32 (Pos_y q)) by lia.
  apply u32_inj_int in Hx, Hy; try assumption.
  destruct p, q; simpl in *; congruence.
Qed.

(** C8: [operator<] compares the 64-bit keys with [x] in the high and [y]
    in the low 32 bits; on points it is irreflexive and transitive, and of
    two distinct points exactly one is below the other; [Pos(1,5) <
    Pos(2,1)]. *)
Theorem Pos_lt_strict_total_order (p q r : Pos) :
  Pos_wf p -> Pos_wf q -> Pos_wf r ->
  Pos_lt p q =
    (u32 (Pos_x p) * 2 ^ 32 + u32 (Pos_y p) <? u32 (Pos_x q) * 2 ^ 32 + u32 (Pos_y q)) /\
  Pos_lt p p = false /\
  (Pos_lt p q = true -> Pos_lt q r = true -> Pos_lt p r = true) /\
  (p <> q ->
   (Pos_lt p q = true /\ Pos_lt q p = false) \/
   (Pos_lt p q = false /\ Pos_lt q p = true)) /\
  Pos_lt (mkPos 1 5) (mkPos 2 1) = true.
Proof.
  intros Hp Hq Hr. unfold Pos_lt. repeat split.
  - now rewrite !Pos_key_arith.
  - apply Z.ltb_irrefl.
  - rewrite !Z.ltb_lt. lia.
  - intros Hne.
    assert (Hk : Pos_key p <> Pos_key q) by (intros Hk; now apply Hne, Pos_key_inj).
    destruct (Z.ltb_spec (Pos_key p) (Pos_key q)), (Z.ltb_spec (Pos_key q) (Pos_key p));
      try lia; auto.
Qed.

Lemma Pos_lt_strict_total_order_witness :
  Pos_lt (mkPos 1 5) (mkPos 2 1) = true /\ Pos_lt (mkPos 2 1) (mkPos 1 5) = false.
Proof.
  assert (H1 : Pos_wf (mkPos 1 5)) by by_eval.
  assert (H2 : Pos_wf (mkPos 2 1)) by by_eval.
  destruct (Pos_lt_strict_total_order (mkPos 1 5) (mkPos 2 1) (mkPos 1 5) H1 H2 H1)
    as (_ & _ & _ & Htri & _).
  destruct Htri as [Hlt | [Hlt _]]; [discriminate | exact Hlt | discriminate Hlt].
Defined.

(** C9: the coordinates enter the key as unsigned values, so every point
    with a negative [x] is above every point with a non-negative [x];
    [Pos(1,0) < Pos(-1,0)], where the lexicographic order on the signed
    coordinates has it the other way round. *)
Theorem Pos_lt_negative_x_above (p q : Pos) :
  Pos_wf p -> Pos_wf q -> Pos_x p < 0 -> 0 <= Pos_x q ->
  (Pos_lt q p = true /\ Pos_lt p q = false) /\
  (Pos_lt (mkPos 1 0) (mkPos (-1) 0) = true /\
   Pos_lt (mkPos (-1) 0) (mkPos 1 0) = false /\
   lex_lt (mkPos 1 0) (mkPos (-1) 0) = false /\
   lex_lt (mkPos (-1) 0) (mkPos 1 0) = true).
Proof.
  intros [Hpx Hpy] [Hqx Hqy] Hneg Hpos. split; [| by_eval].
  unfold Pos_lt. rewrite Z.ltb_lt, Z.ltb_ge, !Pos_key_arith.
  rewrite (u32_of_int (Pos_x p)), (u32_of_int (Pos_x q)) by assumption.
  pose proof (u32_range (Pos_y p)) as H2. pose proof (u32_range (Pos_y q)) as H4.
  unfold is_u32, is_int in *. repeat case_decide; lia.
Qed.

Lemma Pos_lt_negative_x_above_witness :
  Pos_lt (mkPos 7 3) (mkPos (-2) 9) = true /\ Pos_lt (mkPos (-2) 9) (mkPos 7 3) = false.
Proof.
  apply (Pos_lt_negative_x_above (mkPos (-2) 9) (mkPos 7 3)); by_eval.
Defined.

(** ** PixelBase: packing *)

(** What [ARGB] packs for the ARGB1555 layout: the quantised channels
    side by side. *)
Lemma ARGB_Pixel_arith a r g b :
  0 <= a <= 255 -> 0 <= r <= 255 -> 0 <= g <= 255 -> 0 <= b <= 255 ->
  ARGB Pixel a r g b
  = a / 2 ^ 7 * 2 ^ 15 + (r / 2 ^ 3 * 2 ^ 10 + (g / 2 ^ 3 * 2 ^ 5 + b / 2 ^ 3)).
Proof.
  intros Ha Hr Hg Hb. unfold ARGB, to_T. simpl T_bits.
  change (u32 (8 - red_bits Pixel)) with 3. change (u32 (8 - green_bits Pixel)) with 3.
  change (u32 (8 - blue_bits Pixel)) with 3. change (u32 (8 - alpha_bits Pixel)) with 7.
  simpl alpha_shift. simpl red_shift. simpl green_shift. simpl blue_shift.
  rewrite !Z.shiftr_div_pow2 by lia.
  assert (Ha' : 0 <= a / 2 ^ 7 < 2)
    by (split; [apply Z.div_pos | apply Z.div_lt_upper_bound]; lia).
  assert (Hr' : 0 <= r / 2 ^ 3 < 32)
    by (split; [apply Z.div_pos | apply Z.div_lt_upper_bound]; lia).
  assert (Hg' : 0 <= g / 2 ^ 3 < 32)
    by (split; [apply Z.div_pos | apply Z.div_lt_upper_bound]; lia).
  assert (Hb' : 0 <= b / 2 ^ 3 < 32)
    by (split; [apply Z.div_pos | apply Z.div_lt_upper_bound]; lia).
  set (qa := a / 2 ^ 7) in *. set (qr := r / 2 ^ 3) in *.
  set (qg := g / 2 ^ 3) in *. set (qb := b / 2 ^ 3) in *.
  rewrite (Z.shiftl_0_r qb).
  rewrite !u32_id by (unfold is_u32; rewrite ?Z.shiftl_mul_pow2 by lia; lia).
  rewrite <- !Z.lor_assoc.
  rewrite (lor_shiftl_add qg qb 5) by lia.
  rewrite (lor_shiftl_add qr _ 10) by lia.
  rewrite (lor_shiftl_add qa _ 15) by lia.
  apply Z.mod_small. lia.
Qed.

(** Extraction of a field by mask and shift is a division and a
    remainder. *)
Lemma channel_Pixel_arith bits shift pixel :
  0 <= bits -> 0 <= shift -> bits + shift <= 16 ->
  channel Pixel bits shift pixel = (pixel / 2 ^ shift) mod 2 ^ bits.
Proof.
  intros Hb Hs Hbs. unfold channel.
  assert (Hmask : to_T Pixel (field_mask bits shift) = Z.shiftl (Z.ones bits) shift).
  { unfold field_mask, to_T. simpl T_bits.
    assert (Hp : 1 <= 2 ^ bits <= 2 ^ 16)
      by (split; [pose proof (Z.pow_pos_nonneg 2 bits); lia
                 | apply Z.pow_le_mono_r; lia]).
    assert (Hq : 2 ^ bits * 2 ^ shift <= 2 ^ 16)
      by (rewrite <- Z.pow_add_r by lia; apply Z.pow_le_mono_r; lia).
    assert (Hs' : 1 <= 2 ^ shift) by (pose proof (Z.pow_pos_nonneg 2 shift); lia).
    rewrite (Z.shiftl_mul_pow2 1), Z.mul_1_l by lia.
    rewrite (int32_id (2 ^ bits)) by (unfold is_int; lia).
    rewrite (int32_id (2 ^ bits - 1)) by (unfold is_int; lia).
    rewrite Z.ones_equiv, <- Z.sub_1_r, Z.shiftl_mul_pow2 by lia.
    rewrite int32_id by (unfold is_int; nia).
    apply Z.mod_small. nia. }
  rewrite Hmask, Z.shiftr_land, Z.shiftr_shiftl_l, Z.sub_diag, Z.shiftl_0_r by lia.
  rewrite Z.land_ones, Z.shiftr_div_pow2 by lia. reflexivity.
Qed.

(** C4: for 8-bit inputs, each channel extracted from [ARGB(a,r,g,b)] by
    its mask and shift is the input shifted right to the width of the
    channel: the low-order bits are dropped, without rounding (red [0xFF]
    reads back as [0x1F], red [0x07] as [0]). *)
Theorem ARGB_channels_truncate (a r g b : Z) :
  0 <= a <= 255 -> 0 <= r <= 255 -> 0 <= g <= 255 -> 0 <= b <= 255 ->
  channel Pixel (alpha_bits Pixel) (alpha_shift Pixel) (ARGB Pixel a r g b)
    = Z.shiftr a (8 - alpha_bits Pixel) /\
  channel Pixel (red_bits Pixel) (red_shift Pixel) (ARGB Pixel a r g b)
    = Z.shiftr r (8 - red_bits Pixel) /\
  channel Pixel (green_bits Pixel) (green_shift Pixel) (ARGB Pixel a r g b)
    = Z.shiftr g (8 - green_bits Pixel) /\
  channel Pixel (blue_bits Pixel) (blue_shift Pixel) (ARGB Pixel a r g b)
    = Z.shiftr b (8 - blue_bits Pixel) /\
  channel Pixel (red_bits Pixel) (red_shift Pixel) (ARGB Pixel 0 0xFF 0 0) = 0x1F /\
  channel Pixel (red_bits Pixel) (red_shift Pixel) (ARGB Pixel 0 0x07 0 0) = 0.
Proof.
  intros Ha Hr Hg Hb.
  rewrite !channel_Pixel_arith by (simpl; lia).
  rewrite (ARGB_Pixel_arith a r g b) by assumption.
  simpl alpha_bits; simpl red_bits; simpl green_bits; simpl blue_bits.
  simpl alpha_shift; simpl red_shift; simpl green_shift; simpl blue_shift.
  rewrite !Z.shiftr_div_pow2 by lia.
  change (8 - 1) with 7. change (8 - 5) with 3.
  repeat split; try reflexivity.
  all: change (2 ^ 7) with 128; change (2 ^ 3) with 8; change (2 ^ 15) with 32768;
    change (2 ^ 10) with 1024; change (2 ^ 5) with 32; change (2 ^ 1) with 2;
    change (2 ^ 0) with 1.
  all: Z.to_euclidean_division_equations; lia.
Qed.

Lemma ARGB_channels_truncate_witness :
  channel Pixel (red_bits Pixel) (red_shift Pixel) (ARGB Pixel 255 200 100 50)
    = Z.shiftr 200 (8 - red_bits Pixel).
Proof.
  apply (ARGB_channels_truncate 255 200 100 50); lia.
Defined.

(** ** Buffers *)

Lemma read_Done buf (i : nat) v :
  buf !! i = Some v -> read buf (Z.of_nat i) = Done v.
Proof.
  intros Hv. unfold read. rewrite decide_True by lia.
  now rewrite Nat2Z.id, Hv.
Qed.

Lemma write_Done buf (i : nat) v :
  (i < length buf)%nat -> write buf (Z.of_nat i) v = Done (<[i := v]> buf).
Proof.
  intros Hi. unfold write. rewrite decide_True by lia.
  now rewrite Nat2Z.id.
Qed.

(** Overwriting element [i] moves the boundary between the processed
    prefix and the rest by one. *)
Lemma take_S_insert (buf : list Z) (i : nat) v :
  (i < length buf)%nat -> take (S i) (<[i := v]> buf) = take i buf ++ [v].
Proof.
  intros Hi. rewrite (take_S_r _ _ v) by now apply list_lookup_insert_eq.
  now rewrite take_insert_ge by lia.
Qed.

Section Scalar.
Context (P : PixelBase).

(** [std::transform] maps [f] over the range and leaves the rest. *)
Lemma transform_spec (f : Z -> Z) (count : nat) :
  forall (first : nat) (buf : list Z),
    (first + count <= length buf)%nat ->
    transform count (Z.of_nat first) f buf =
      Done (take first buf ++ (f <$> take count (drop first buf))
              ++ drop (first + count) buf).
Proof.
  induction count as [| count IH]; intros first buf Hlen; simpl.
  - now rewrite Nat.add_0_r, take_drop.
  - destruct (lookup_lt_is_Some_2 buf first ltac:(lia)) as [v Hv].
    rewrite (read_Done _ _ _ Hv). simpl.
    rewrite write_Done by lia. simpl.
    replace (Z.of_nat first + 1) with (Z.of_nat (S first)) by lia.
    rewrite IH by (rewrite length_insert; lia).
    rewrite take_S_insert by lia.
    rewrite !drop_insert_lt by lia.
    rewrite (drop_S _ _ _ Hv). simpl.
    rewrite <- app_assoc. simpl.
    now replace (first + S count)%nat with (S first + count)%nat by lia.
Qed.

Lemma mask_rgb_spec (dst : list Z) (size : nat) :
  (size <= length dst)%nat ->
  mask_rgb P dst (Z.of_nat size) =
    Done (((fun pix => pixel_and P pix (rgb_mask P)) <$> take size dst)
            ++ drop size dst).
Proof.
  intros Hs. unfold mask_rgb. rewrite Nat2Z.id.
  now rewrite (transform_spec _ size 0 dst) by lia.
Qed.

(** The scalar loop of [set_line_if_alpha], entered at [x] with the
    elements below [x] done, finishes the line. *)
Lemma set_line_loop_spec (pix : nat) (src : list Z) (fuel : nat) :
  forall (x : nat) (dst : list Z),
    length dst = pix -> length src = pix -> Z.of_nat pix < 2 ^ 32 ->
    (x <= pix)%nat -> (pix - x < fuel)%nat ->
    set_line_loop P fuel (Z.of_nat x) (Z.of_nat pix) dst src =
      Done (take x dst ++ drop x (zip_with (set_if_alpha P) dst src)).
Proof.
  induction fuel as [| fuel IH]; intros x dst Hd Hs Hpix Hx Hfuel; [lia |].
  simpl. destruct (Z.ltb_spec (Z.of_nat x) (Z.of_nat pix)) as [Hlt | Hge].
  - destruct (lookup_lt_is_Some_2 src x ltac:(lia)) as [s Hsx].
    destruct (lookup_lt_is_Some_2 dst x ltac:(lia)) as [d Hdx].
    rewrite (read_Done _ _ _ Hsx), (read_Done _ _ _ Hdx). simpl.
    rewrite write_Done by lia. simpl.
    rewrite u32_id by (unfold is_u32; lia).
    replace (Z.of_nat x + 1) with (Z.of_nat (S x)) by lia.
    rewrite IH by (rewrite ?length_insert; lia).
    rewrite take_S_insert by lia.
    rewrite !zip_with_drop, drop_insert_lt by lia.
    rewrite (drop_S dst _ _ Hdx), (drop_S src _ _ Hsx). simpl.
    now rewrite <- app_assoc.
  - assert (x = pix) by lia. subst x.
    rewrite take_ge, drop_ge by (rewrite ?length_zip_with; lia).
    now rewrite app_nil_r.
Qed.

Lemma set_line_if_alpha_spec (pix : nat) (dst src : list Z) (fuel : nat) :
  length dst = pix -> length src = pix -> Z.of_nat pix < 2 ^ 32 ->
  (pix < fuel)%nat ->
  set_line_if_alpha P fuel dst src (Z.of_nat pix) =
    Done (zip_with (set_if_alpha P) dst src).
Proof.
  intros Hd Hs Hpix Hfuel. unfold set_line_if_alpha.
  change 0 with (Z.of_nat 0).
  now rewrite (set_line_loop_spec pix src fuel 0 dst) by lia.
Qed.

Lemma set_if_alpha_composite d s : set_if_alpha P d s = composite_pixel P d s.
Proof.
  unfold set_if_alpha, composite_pixel.
  destruct (Z.eqb_spec (Z.land s (alpha_mask P)) 0); simpl.
  - now rewrite decide_False by lia.
  - now rewrite decide_True by lia.
Qed.
End Scalar.

(** C1: for buffers [dst] and [src] of equal length [n] (an [unsigned]),
    [set_line_if_alpha(dst, src, n)] returns, and in the buffer it leaves
    every element [i < n] is the original [src[i]] if the alpha bits of
    [src[i]] are not all zero and the original [dst[i]] otherwise. *)
Theorem set_line_if_alpha_correct
  (P : PixelBase) (n : nat) (dst src : list Z) (fuel : nat) :
  length dst = n -> length src = n -> Z.of_nat n < 2 ^ 32 -> (n < fuel)%nat ->
  exists dst' : list Z,
    set_line_if_alpha P fuel dst src (Z.of_nat n) = Done dst' /\
    length dst' = n /\
    forall (i : nat) (d s : Z),
      dst !! i = Some d -> src !! i = Some s ->
      dst' !! i = Some (if decide (Z.land s (alpha_mask P) <> 0) then s else d).
Proof.
  intros Hd Hs Hn Hfuel.
  exists (zip_with (set_if_alpha P) dst src). repeat split.
  - now apply set_line_if_alpha_spec.
  - rewrite length_zip_with. lia.
  - intros i d s Hdi Hsi.
    rewrite lookup_zip_with, Hdi, Hsi. simpl.
    now rewrite set_if_alpha_composite.
Qed.

Lemma set_line_if_alpha_correct_witness :
  exists dst' : list Z,
    set_line_if_alpha Pixel 4 [1; 2; 3] [0x8005; 7; 0x8000] 3 = Done dst' /\
    dst' !! 0%nat = Some 0x8005 /\ dst' !! 1%nat = Some 2.
Proof.
  destruct (set_line_if_alpha_correct Pixel 3 [1; 2; 3] [0x8005; 7; 0x8000] 4)
    as (dst' & Hrun & _ & Hsel); [reflexivity | reflexivity | by_eval | lia |].
  exists dst'. split; [exact Hrun | split].
  - exact (Hsel 0%nat 1 0x8005 eq_refl eq_refl).
  - exact (Hsel 1%nat 2 7 eq_refl eq_refl).
Defined.

(** C7: a second [mask_rgb] over a buffer changes nothing, and [mask_rgb]
    over a buffer whose elements all satisfy [p = p & rgb_mask] changes
    nothing. *)
Theorem mask_rgb_idempotent (P : PixelBase) (buf : list Z) :
  (exists once : list Z,
     mask_rgb P buf (Z.of_nat (length buf)) = Done once /\
     mask_rgb P once (Z.of_nat (length once)) = Done once) /\
  (Forall (fun p => p = pixel_and P p (rgb_mask P)) buf ->
   mask_rgb P buf (Z.of_nat (length buf)) = Done buf).
Proof.
  assert (Hrun : forall l : list Z,
             mask_rgb P l (Z.of_nat (length l)) =
               Done ((fun pix => pixel_and P pix (rgb_mask P)) <$> l)).
  { intros l. rewrite mask_rgb_spec by lia.
    now rewrite take_ge, drop_ge, app_nil_r by lia. }
  split.
  - eexists. split; [apply Hrun |].
    rewrite Hrun. f_equal. rewrite <- list_fmap_compose.
    apply list_fmap_ext. intros _ p _. simpl.
    unfold pixel_and, to_T.
    destruct (Z.eq_dec (2 ^ T_bits P) 0) as [Hz | Hnz].
    + rewrite Hz, !Z.mod_0_r. now rewrite <- Z.land_assoc, Z.land_diag.
    + assert (H0 : T_bits P < 0 \/ 0 <= T_bits P) by lia.
      destruct H0 as [Hneg | Hpos];
        [rewrite Z.pow_neg_r in Hnz by assumption; lia |].
      rewrite <- !Z.land_ones by assumption.
      apply Z.bits_inj'. intros k Hk. rewrite !Z.land_spec.
      destruct (Z.testbit p k), (Z.testbit (rgb_mask P) k),
        (Z.testbit (Z.ones (T_bits P)) k); reflexivity.
  - intros Hall. rewrite Hrun. f_equal.
    induction Hall as [| p l Hp _ IH]; [reflexivity |].
    rewrite fmap_cons, IH. f_equal. now symmetry.
Qed.

Lemma mask_rgb_idempotent_witness :
  mask_rgb Pixel [0x7FFF; 1; 3] (Z.of_nat (length [0x7FFF; 1; 3])) = Done [0x7FFF; 1; 3].
Proof.
  apply (mask_rgb_idempotent Pixel [0x7FFF; 1; 3]).
  repeat constructor.
Defined.

(** ** SSE2 lanes *)

Lemma u16_id z : is_u16 z -> u16 z = z.
Proof. unfold is_u16, u16. intros Hz. apply Z.mod_small. lia. Qed.

Lemma u16_range z : is_u16 (u16 z).
Proof. unfold is_u16, u16. apply Z.mod_pos_bound. lia. Qed.


Lemma testbit_above_u16 z k : is_u16 z -> 16 <= k -> Z.testbit z k = false.
Proof.
  intros Hz Hk. rewrite <- (u16_id z Hz). unfold u16.
  apply Z.mod_pow2_bits_high. lia.
Qed.


Lemma lane_range i v : is_u16 (lane i v).
Proof.
  unfold lane. change 0xFFFF with (Z.ones 16).
  rewrite Z.land_ones by lia. apply u16_range.
Qed.














Lemma length_unpack v : length (unpack v) = 8%nat.
Proof. reflexivity. Qed.

Lemma Forall_unpack v : Forall is_u16 (unpack v).
Proof. unfold unpack. apply Forall_fmap, Forall_forall. intros i _. apply lane_range. Qed.



(** ** Windows of a buffer *)

Section Windows.
Context {A : Type}.
Implicit Types l k : list A.





End Windows.

(** ** The SSE2 variants against the scalar ones *)





Section SSE2.
Context (P : PixelBase).
Hypothesis T_is_uint16 : T_bits P = 16.










End SSE2.



(** ** The wrap-around of the vector loops *)

(** The next value of a counter that is a multiple of 8. *)
Lemma u32_next_group x :
  0 <= x <= 2 ^ 32 - 8 -> x mod 8 = 0 ->
  0 <= u32 (x + 8) <= 2 ^ 32 - 8 /\ u32 (x + 8) mod 8 = 0.
Proof.
  intros Hx H8. unfold u32.
  destruct (Z.eq_dec x (2 ^ 32 - 8)) as [-> | Hne]; [by_eval |].
  rewrite Z.mod_small by lia.
  change (2 ^ 32) with 4294967296 in *.
  Z.to_euclidean_division_equations. lia.
Qed.

Section Wrap.
Context (P : PixelBase).

(** For a count above [2^32 - 8] the test [x + 8 < pix] never fails:
    the sum wraps around to 0 at [x = 2^32 - 8]. *)
Lemma vec_test_always x pix :
  0 <= x <= 2 ^ 32 - 8 -> x mod 8 = 0 -> 2 ^ 32 - 8 < pix ->
  (u32 (x + 8) <? pix) = true.
Proof.
  intros Hx H8 Hpix. apply Z.ltb_lt.
  pose proof (u32_next_group x Hx H8). lia.
Qed.

Lemma set_line_vec_loop_wraps (pix : Z) (src : list Z) (fuel : nat) :
  2 ^ 32 - 8 < pix ->
  forall (x : Z) (dst : list Z) r,
    0 <= x <= 2 ^ 32 - 8 -> x mod 8 = 0 ->
    set_line_vec_loop P fuel x pix dst src <> Done r.
Proof.
  intros Hpix. induction fuel as [| fuel IH]; intros x dst r Hx H8; [discriminate |].
  simpl. rewrite vec_test_always by assumption.
  destruct (_mm_loadu_si128 src x); [| discriminate | discriminate].
  destruct (_mm_loadu_si128 dst x); [| discriminate | discriminate].
  cbn [bind]. destruct (_mm_storeu_si128 dst x _); [| discriminate | discriminate].
  cbn [bind]. now apply IH; apply u32_next_group.
Qed.

Lemma mask_rgb_vec_loop_wraps (size : Z) (fuel : nat) :
  2 ^ 32 - 8 < size ->
  forall (x : Z) (dst : list Z) r,
    0 <= x <= 2 ^ 32 - 8 -> x mod 8 = 0 ->
    mask_rgb_vec_loop P fuel x size dst <> Done r.
Proof.
  intros Hsize. induction fuel as [| fuel IH]; intros x dst r Hx H8; [discriminate |].
  simpl. rewrite vec_test_always by assumption.
  destruct (_mm_loadu_si128 dst x); [| discriminate | discriminate].
  cbn [bind]. destruct (_mm_storeu_si128 dst x _); [| discriminate | discriminate].
  cbn [bind]. now apply IH; apply u32_next_group.
Qed.

(** No run of the SSE2 variants on more than [2^32 - 8] pixels
    returns. *)
Lemma sse2_never_returns (n : Z) (dst src : list Z) (fuel : nat) (r : list Z) :
  2 ^ 32 - 8 < n ->
  set_line_if_alpha_sse2 P fuel dst src n <> Done r /\
  mask_rgb_sse2 P fuel dst n <> Done r.
Proof.
  intros Hn. split.
  - unfold set_line_if_alpha_sse2.
    destruct (set_line_vec_loop P fuel 0 n dst src) as [r' | |] eqn:Hrun;
      [| discriminate | discriminate].
    exfalso. revert Hrun. apply set_line_vec_loop_wraps; [assumption | lia | reflexivity].
  - unfold mask_rgb_sse2.
    destruct (mask_rgb_vec_loop P fuel 0 n dst) as [r' | |] eqn:Hrun;
      [| discriminate | discriminate].
    exfalso. revert Hrun. apply mask_rgb_vec_loop_wraps; [assumption | lia | reflexivity].
Qed.
End Wrap.

(** C2 fails on the code: on two buffers of 4294967289 [= 2^32 - 7]
    pixels, all zero, the scalar [set_line_if_alpha] and [mask_rgb] return
    (leaving the destination as it was), and the SSE2 variants return for
    no amount of fuel: at [x = 2^32 - 8] the test [x + 8 < pix] is taken on
    the wrapped sum 0, the vector round reads and writes seven elements
    past the end of the buffers, and the counter starts again from 0. *)
Theorem sse2_wraps_on_4294967289_pixels :
  let buf := replicate (Z.to_nat 4294967289) 0 in
  (exists fuel : nat, set_line_if_alpha Pixel fuel buf buf 4294967289 = Done buf) /\
  mask_rgb Pixel buf 4294967289 = Done buf /\
  (forall (fuel : nat) (r : list Z),
     set_line_if_alpha_sse2 Pixel fuel buf buf 4294967289 <> Done r /\
     mask_rgb_sse2 Pixel fuel buf 4294967289 <> Done r).
Proof.
  assert (Hn : Z.of_nat (Z.to_nat 4294967289) = 4294967289) by (apply Z2Nat.id; lia).
  generalize dependent (Z.to_nat 4294967289). intros n Hn buf.
  assert (Hlen : length buf = n) by apply length_replicate.
  split; [| split].
  - exists (S n). rewrite <- Hn.
    rewrite (set_line_if_alpha_spec Pixel n) by (rewrite ?Hn; lia).
    unfold buf. now rewrite zip_with_replicate.
  - rewrite <- Hn. rewrite mask_rgb_spec by lia.
    rewrite take_ge, drop_ge, app_nil_r by lia.
    unfold buf. now rewrite fmap_replicate.
  - intros fuel r. apply sse2_never_returns. lia.
Qed.

(** * Further properties *)

(** ** Rect: intersection as a set of pixels *)

(** X1: intersection is commutative, for all operands. *)
Theorem Rect_and_comm (A B : Rect) : Rect_and A B = Rect_and B A.
Proof.
  unfold Rect_and. rewrite !std_max_spec, !std_min_spec.
  rewrite (Z.max_comm (Rect_x A)), (Z.max_comm (Rect_y A)).
  rewrite (Z.min_comm (int32 (Rect_x A + Rect_w A))).
  now rewrite (Z.min_comm (int32 (Rect_y A + Rect_h A))).
Qed.

Lemma Rect_small_fits (A B : Rect) :
  Rect_small A -> Rect_small B -> edge_sums_fit A B /\ extents_fit A B.
Proof.
  intros ([Hax Hay] & Haw & Hah) ([Hbx Hby] & Hbw & Hbh).
  unfold edge_sums_fit, extents_fit, isect_left, isect_right, isect_top,
    isect_bottom, Rect_x, Rect_y, is_int, is_small in *.
  lia.
Qed.

Lemma Rect_small_wf (A : Rect) : Rect_small A -> Rect_wf A.
Proof.
  intros ([Hax Hay] & Haw & Hah).
  unfold Rect_wf, Pos_wf, is_int, is_small in *. lia.
Qed.

Lemma intersection_small (A B : Rect) :
  Rect_small A -> Rect_small B -> Rect_small (intersection A B).
Proof.
  intros ([Hax Hay] & Haw & Hah) ([Hbx Hby] & Hbw & Hbh).
  unfold intersection. case_decide as Hd.
  - unfold Rect_small, Pos_small, is_small. simpl. lia.
  - unfold Rect_small, Pos_small, mkRect, isect_left, isect_right, isect_top,
      isect_bottom, Rect_x, Rect_y, is_small in *. simpl. lia.
Qed.

(** X2: a pixel lies in [A & B] exactly when it lies in [A] and in [B],
    provided the edge sums and the two extents of the overlap are
    representable in [int]. *)
Theorem Rect_and_covers (A B : Rect) (px py : Z) :
  edge_sums_fit A B -> extents_fit A B ->
  (covers (Rect_and A B) px py <-> covers A px py /\ covers B px py).
Proof.
  intros He Hx. rewrite (Rect_and_no_overflow A B He Hx).
  unfold intersection. case_decide as Hd.
  - unfold covers, isect_left, isect_right, isect_top, isect_bottom in *.
    change (Rect_x Rect_empty) with 0. change (Rect_y Rect_empty) with 0.
    change (Rect_w Rect_empty) with 0. change (Rect_h Rect_empty) with 0.
    lia.
  - unfold covers, mkRect, Rect_x, Rect_y; simpl.
    unfold isect_left, isect_right, isect_top, isect_bottom, Rect_x, Rect_y in *.
    lia.
Qed.

Lemma Rect_and_covers_witness :
  covers (Rect_and (mkRect 0 0 10 10) (mkRect 5 5 10 10)) 7 8 <->
  covers (mkRect 0 0 10 10) 7 8 /\ covers (mkRect 5 5 10 10) 7 8.
Proof.
  apply (Rect_and_covers (mkRect 0 0 10 10) (mkRect 5 5 10 10) 7 8); by_eval.
Defined.

(** X3: rectangles whose coordinates and extents are below [2^29] in
    absolute value are closed under intersection, and on them [operator&]
    is the intersection of the specification, with no overflow: clips can
    be chained. *)
Theorem Rect_and_small (A B : Rect) :
  Rect_small A -> Rect_small B ->
  Rect_and A B = intersection A B /\ Rect_small (Rect_and A B).
Proof.
  intros Ha Hb. destruct (Rect_small_fits A B Ha Hb) as [He Hx].
  rewrite (Rect_and_no_overflow A B He Hx).
  split; [reflexivity | now apply intersection_small].
Qed.

Lemma Rect_and_small_witness :
  Rect_and (mkRect (-20) 3 50 40) (mkRect 5 (-7) 10 100) = mkRect 5 3 10 40 /\
  Rect_small (Rect_and (mkRect (-20) 3 50 40) (mkRect 5 (-7) 10 100)).
Proof.
  destruct (Rect_and_small (mkRect (-20) 3 50 40) (mkRect 5 (-7) 10 100))
    as [Heq Hsmall]; [by_eval | by_eval |].
  split; [rewrite Heq; reflexivity | exact Hsmall].
Defined.

Lemma intersection_empty_l (C : Rect) : intersection Rect_empty C = Rect_empty.
Proof.
  unfold intersection. case_decide as Hd; [reflexivity |].
  exfalso. apply Hd. left. unfold isect_left, isect_right.
  change (Rect_x Rect_empty) with 0. change (Rect_w Rect_empty) with 0. lia.
Qed.

Lemma intersection_empty_r (A : Rect) : intersection A Rect_empty = Rect_empty.
Proof.
  unfold intersection. case_decide as Hd; [reflexivity |].
  exfalso. apply Hd. left. unfold isect_left, isect_right.
  change (Rect_x Rect_empty) with 0. change (Rect_w Rect_empty) with 0. lia.
Qed.

(** One axis of the intersection: the overlap of two intervals. *)
Lemma overlap_shrinks_l a1 a2 b1 b2 c1 c2 :
  Z.min a2 b2 - Z.max a1 b1 <= 0 ->
  Z.min a2 (Z.max b1 c1 + (Z.min b2 c2 - Z.max b1 c1)) - Z.max a1 (Z.max b1 c1) <= 0.
Proof. lia. Qed.

Lemma overlap_shrinks_r a1 a2 b1 b2 c1 c2 :
  Z.min b2 c2 - Z.max b1 c1 <= 0 ->
  Z.min (Z.max a1 b1 + (Z.min a2 b2 - Z.max a1 b1)) c2 - Z.max (Z.max a1 b1) c1 <= 0.
Proof. lia. Qed.

Lemma overlap_assoc a1 a2 b1 b2 c1 c2 :
  Z.max (Z.max a1 b1) c1 = Z.max a1 (Z.max b1 c1) /\
  Z.min (Z.max a1 b1 + (Z.min a2 b2 - Z.max a1 b1)) c2
  = Z.min a2 (Z.max b1 c1 + (Z.min b2 c2 - Z.max b1 c1)).
Proof. lia. Qed.

Lemma intersection_assoc (A B C : Rect) :
  intersection (intersection A B) C = intersection A (intersection B C).
Proof.
  unfold intersection at 2. unfold intersection at 3.
  destruct (decide (isect_right A B - isect_left A B <= 0 \/
                    isect_bottom A B - isect_top A B <= 0)) as [Hab | Hab];
  destruct (decide (isect_right B C - isect_left B C <= 0 \/
                    isect_bottom B C - isect_top B C <= 0)) as [Hbc | Hbc].
  - now rewrite intersection_empty_l, intersection_empty_r.
  - rewrite intersection_empty_l. symmetry.
    unfold intersection. rewrite decide_True; [reflexivity |].
    clear Hbc. unfold isect_left, isect_right, isect_top, isect_bottom in *.
    unfold mkRect, Rect_x, Rect_y in *. simpl.
    destruct Hab as [H | H]; [left | right]; now apply overlap_shrinks_l.
  - rewrite intersection_empty_r.
    unfold intersection. rewrite decide_True; [reflexivity |].
    clear Hab. unfold isect_left, isect_right, isect_top, isect_bottom in *.
    unfold mkRect, Rect_x, Rect_y in *. simpl.
    destruct Hbc as [H | H]; [left | right]; now apply overlap_shrinks_r.
  - clear Hab Hbc.
    unfold intersection, isect_left, isect_right, isect_top, isect_bottom.
    unfold mkRect, Rect_x, Rect_y. simpl.
    destruct (overlap_assoc (Pos_x (Rect_pos A)) (Pos_x (Rect_pos A) + Rect_w A)
                (Pos_x (Rect_pos B)) (Pos_x (Rect_pos B) + Rect_w B)
                (Pos_x (Rect_pos C)) (Pos_x (Rect_pos C) + Rect_w C)) as [-> ->].
    destruct (overlap_assoc (Pos_y (Rect_pos A)) (Pos_y (Rect_pos A) + Rect_h A)
                (Pos_y (Rect_pos B)) (Pos_y (Rect_pos B) + Rect_h B)
                (Pos_y (Rect_pos C)) (Pos_y (Rect_pos C) + Rect_h C)) as [-> ->].
    reflexivity.
Qed.

(** X4: on rectangles whose coordinates and extents are below [2^29] in
    absolute value, intersection is associative. *)
Theorem Rect_and_assoc (A B C : Rect) :
  Rect_small A -> Rect_small B -> Rect_small C ->
  Rect_and (Rect_and A B) C = Rect_and A (Rect_and B C).
Proof.
  intros Ha Hb Hc.
  destruct (Rect_small_fits A B Ha Hb) as [He1 Hx1].
  destruct (Rect_small_fits B C Hb Hc) as [He2 Hx2].
  rewrite (Rect_and_no_overflow A B He1 Hx1), (Rect_and_no_overflow B C He2 Hx2).
  pose proof (intersection_small A B Ha Hb) as Hab.
  pose proof (intersection_small B C Hb Hc) as Hbc.
  destruct (Rect_small_fits _ C Hab Hc) as [He3 Hx3].
  destruct (Rect_small_fits A _ Ha Hbc) as [He4 Hx4].
  rewrite (Rect_and_no_overflow _ C He3 Hx3), (Rect_and_no_overflow A _ He4 Hx4).
  apply intersection_assoc.
Qed.

Lemma Rect_and_assoc_witness :
  Rect_and (Rect_and (mkRect 0 0 10 10) (mkRect 5 5 10 10)) (mkRect 7 0 2 20)
  = Rect_and (mkRect 0 0 10 10) (Rect_and (mkRect 5 5 10 10) (mkRect 7 0 2 20)).
Proof.
  apply (Rect_and_assoc (mkRect 0 0 10 10) (mkRect 5 5 10 10) (mkRect 7 0 2 20));
    by_eval.
Defined.

(** X5: [A & B] is the largest rectangle inside both: a non-empty
    rectangle that lies inside [A] and inside [B] lies inside [A & B],
    which is then non-empty (edge sums and extents representable). *)
Theorem Rect_and_greatest (A B R : Rect) :
  edge_sums_fit A B -> extents_fit A B ->
  Rect_bool R = true -> inside R A -> inside R B ->
  Rect_bool (Rect_and A B) = true /\ inside R (Rect_and A B).
Proof.
  intros He Hx Hb Ha HB. rewrite (Rect_and_no_overflow A B He Hx).
  unfold Rect_bool in Hb. apply andb_true_iff in Hb as [Hw Hh].
  apply Z.ltb_lt in Hw, Hh.
  unfold intersection. unfold inside in Ha, HB.
  case_decide as Hd.
  - exfalso. unfold isect_left, isect_right, isect_top, isect_bottom in Hd. lia.
  - unfold Rect_bool, inside, mkRect, Rect_x, Rect_y in *; simpl.
    unfold isect_left, isect_right, isect_top, isect_bottom, Rect_x, Rect_y in *.
    split; [apply andb_true_iff; rewrite !Z.ltb_lt |]; lia.
Qed.

Lemma Rect_and_greatest_witness :
  Rect_bool (Rect_and (mkRect 0 0 10 10) (mkRect 5 5 10 10)) = true /\
  inside (mkRect 6 6 2 2) (Rect_and (mkRect 0 0 10 10) (mkRect 5 5 10 10)).
Proof.
  apply (Rect_and_greatest (mkRect 0 0 10 10) (mkRect 5 5 10 10) (mkRect 6 6 2 2));
    by_eval.
Defined.

(** ** Rect: translation *)

Lemma Rect_add_small (A : Rect) (p : Pos) :
  Rect_small A -> Pos_small p ->
  Rect_add A p = mkRect (Rect_x A + Pos_x p) (Rect_y A + Pos_y p) (Rect_w A) (Rect_h A).
Proof.
  intros ([Hax Hay] & _) [Hpx Hpy]. unfold Rect_add, Pos_add, mkRect, Rect_x, Rect_y.
  unfold is_small in *. now rewrite !int32_id by (unfold is_int; lia).
Qed.

(** One axis: moving both intervals moves their overlap. *)
Lemma overlap_shift a1 a2 b1 b2 p :
  Z.max (a1 + p) (b1 + p) = Z.max a1 b1 + p /\
  Z.min (a1 + p + a2) (b1 + p + b2) - Z.max (a1 + p) (b1 + p)
  = Z.min (a1 + a2) (b1 + b2) - Z.max a1 b1.
Proof. lia. Qed.

(** X6: moving both operands by the same offset moves a non-empty
    intersection by that offset, and an empty one stays the canonical empty
    rectangle at the origin (coordinates, extents and offset below [2^29] in
    absolute value). *)
Theorem Rect_and_translate (A B : Rect) (p : Pos) :
  Rect_small A -> Rect_small B -> Pos_small p ->
  Rect_and (Rect_add A p) (Rect_add B p)
  = if Rect_bool (Rect_and A B) then Rect_add (Rect_and A B) p else Rect_empty.
Proof.
  intros Ha Hb Hp.
  destruct (Rect_small_fits A B Ha Hb) as [He Hx].
  rewrite (Rect_and_no_overflow A B He Hx).
  rewrite (Rect_add_small A p Ha Hp), (Rect_add_small B p Hb Hp).
  pose proof (intersection_small A B Ha Hb) as Hab.
  destruct Ha as ([Hax Hay] & Haw & Hah), Hb as ([Hbx Hby] & Hbw & Hbh).
  pose proof Hp as [Hpx Hpy].
  fold (Rect_x A) in Hax. fold (Rect_y A) in Hay.
  fold (Rect_x B) in Hbx. fold (Rect_y B) in Hby.
  destruct (overlap_shift (Rect_x A) (Rect_w A) (Rect_x B) (Rect_w B) (Pos_x p))
    as [Hl Hw].
  destruct (overlap_shift (Rect_y A) (Rect_h A) (Rect_y B) (Rect_h B) (Pos_y p))
    as [Ht Hh].
  rewrite Rect_and_no_overflow.
  - unfold intersection at 1.
    unfold isect_left, isect_right, isect_top, isect_bottom, mkRect, Rect_x, Rect_y.
    simpl. fold (Rect_x A) (Rect_y A) (Rect_x B) (Rect_y B).
    rewrite Hw, Hh, Hl, Ht.
    fold (isect_left A B) (isect_right A B) (isect_top A B) (isect_bottom A B).
    revert Hab. unfold intersection. case_decide as Hd; intros Hab; [reflexivity |].
    assert (Hb : Rect_bool (mkRect (isect_left A B) (isect_top A B)
                  (isect_right A B - isect_left A B)
                  (isect_bottom A B - isect_top A B)) = true).
    { unfold Rect_bool. simpl. apply andb_true_iff. rewrite !Z.ltb_lt. lia. }
    rewrite Hb, (Rect_add_small _ p Hab Hp). reflexivity.
  - clear Hl Hw Ht Hh Hab.
    unfold edge_sums_fit, is_int, is_small, mkRect, Rect_x, Rect_y in *. simpl. lia.
  - unfold extents_fit, isect_left, isect_right, isect_top, isect_bottom, mkRect,
      Rect_x, Rect_y. simpl. fold (Rect_x A) (Rect_y A) (Rect_x B) (Rect_y B).
    rewrite Hw, Hh. clear Hl Hw Ht Hh Hab.
    unfold is_int, is_small, Rect_x, Rect_y in *. lia.
Qed.

Lemma Rect_and_translate_witness :
  Rect_and (Rect_add (mkRect 0 0 10 10) (mkPos 100 (-3)))
           (Rect_add (mkRect 5 5 10 10) (mkPos 100 (-3)))
  = mkRect 105 2 5 5.
Proof.
  rewrite (Rect_and_translate (mkRect 0 0 10 10) (mkRect 5 5 10 10) (mkPos 100 (-3)));
    [reflexivity | by_eval | by_eval | by_eval].
Defined.

(** ** Pos: arithmetic *)

(** X7: when the sums are representable in [int], subtracting what was
    added gives the point back, and so does moving a rectangle there and
    back. *)
Theorem Pos_add_sub (p q : Pos) (r : Rect) :
  Pos_wf p -> Pos_wf (Pos_plus p q) ->
  Rect_pos r = p ->
  Pos_add p q = Pos_plus p q /\
  Pos_sub (Pos_add p q) q = p /\
  Rect_sub (Rect_add r q) q = r.
Proof.
  intros [Hpx Hpy] [Hsx Hsy] Hr. simpl in Hsx, Hsy.
  assert (Hadd : Pos_add p q = Pos_plus p q).
  { unfold Pos_add, Pos_plus, mkPos. now rewrite !int32_id by assumption. }
  assert (Hsub : Pos_sub (Pos_add p q) q = p).
  { rewrite Hadd. unfold Pos_sub, Pos_plus, mkPos. simpl.
    replace (Pos_x p + Pos_x q - Pos_x q) with (Pos_x p) by lia.
    replace (Pos_y p + Pos_y q - Pos_y q) with (Pos_y p) by lia.
    rewrite !int32_id by assumption. now destruct p. }
  repeat split; try assumption.
  unfold Rect_sub, Rect_add. simpl. rewrite Hr, Hsub, <- Hr. now destruct r.
Qed.

Lemma Pos_add_sub_witness :
  Pos_sub (Pos_add (mkPos 3 (-4)) (mkPos 10 20)) (mkPos 10 20) = mkPos 3 (-4).
Proof.
  apply (Pos_add_sub (mkPos 3 (-4)) (mkPos 10 20) (mkRect 3 (-4) 1 1));
    [by_eval | by_eval | reflexivity].
Defined.

(** X8: away from [INT_MIN] the unary minus is an involution, and when
    the difference is representable subtracting a point is adding its
    negation. *)
Theorem Pos_neg_involutive (p q : Pos) :
  Pos_wf p -> Pos_wf q ->
  Pos_wf (Pos_minus (mkPos 0 0) q) -> Pos_wf (Pos_minus p q) ->
  Pos_neg (Pos_neg q) = q /\ Pos_sub p q = Pos_add p (Pos_neg q).
Proof.
  intros [Hpx Hpy] [Hqx Hqy] [Hnx Hny] [Hdx Hdy]. simpl in Hnx, Hny, Hdx, Hdy.
  unfold Pos_neg, Pos_sub, Pos_add. simpl.
  rewrite !(int32_id (- Pos_x q)), !(int32_id (- Pos_y q)) by (unfold is_int in *; lia).
  rewrite !Z.opp_involutive, !Z.add_opp_r.
  rewrite !(int32_id (Pos_x q)), !(int32_id (Pos_y q)) by assumption.
  split; [now destruct q | reflexivity].
Qed.

Lemma Pos_neg_involutive_witness :
  Pos_neg (Pos_neg (mkPos 7 (-2))) = mkPos 7 (-2) /\
  Pos_sub (mkPos 1 1) (mkPos 7 (-2)) = Pos_add (mkPos 1 1) (Pos_neg (mkPos 7 (-2))).
Proof.
  apply (Pos_neg_involutive (mkPos 1 1) (mkPos 7 (-2))); by_eval.
Defined.

(** X9: division by an [int] truncates toward zero: away from division by
    zero and from [INT_MIN / -1] it returns a quotient whose product with
    the divisor is no further from zero than the coordinate and differs from
    it by less than the divisor; and dividing a point scaled by [s <> 0] by
    [s] gives the point back when the products are representable. *)
Theorem Pos_div_truncates (p : Pos) (d : Z) :
  Pos_wf p -> is_int d -> d <> 0 -> (d = -1 -> - 2 ^ 31 < Pos_x p /\ - 2 ^ 31 < Pos_y p) ->
  (exists q : Pos,
     Pos_div p d = Done q /\ Pos_wf q /\
     Z.abs (Pos_x q * d) <= Z.abs (Pos_x p) /\ Z.abs (Pos_x p - Pos_x q * d) < Z.abs d /\
     Z.abs (Pos_y q * d) <= Z.abs (Pos_y p) /\ Z.abs (Pos_y p - Pos_y q * d) < Z.abs d) /\
  (is_int (d * Pos_x p) -> is_int (d * Pos_y p) -> Pos_div (Pos_scale d p) d = Done p).
Proof.
  intros [Hpx Hpy] Hd Hnz Hmin.
  assert (Hdiv : forall a, is_int a -> (d = -1 -> - 2 ^ 31 < a) ->
            int_div a d = Done (Z.quot a d)).
  { intros a Ha Hm. unfold int_div.
    destruct (Z.eqb_spec d 0); [contradiction |].
    destruct (Z.eqb_spec a (- 2 ^ 31)), (Z.eqb_spec d (-1)); simpl; try reflexivity.
    specialize (Hm ltac:(assumption)). lia. }
  assert (Hq : forall a, is_int a -> (d = -1 -> - 2 ^ 31 < a) ->
            is_int (Z.quot a d) /\
            Z.abs (Z.quot a d * d) <= Z.abs a /\ Z.abs (a - Z.quot a d * d) < Z.abs d).
  { intros a Ha Hm.
    assert (HD : 0 < Z.abs d) by lia.
    pose proof (Z.quot_abs a d Hnz) as Habs.
    rewrite Z.quot_div_nonneg in Habs by lia.
    pose proof (Z.mul_div_le (Z.abs a) (Z.abs d) HD) as Hle.
    rewrite Habs in Hle.
    pose proof (Z.quot_rem a d Hnz) as Hqr.
    pose proof (Z.rem_bound_abs a d Hnz) as Hr.
    repeat split.
    - unfold is_int in *.
      destruct (Z.eq_dec d 1) as [-> | Hn1]; [rewrite Z.quot_1_r; lia |].
      destruct (Z.eq_dec d (-1)) as [-> | Hn2]; [| nia].
      specialize (Hm eq_refl). change (-1) with (- (1)).
      rewrite Z.quot_opp_r, Z.quot_1_r by lia. lia.
    - unfold is_int in *.
      destruct (Z.eq_dec d 1) as [-> | Hn1]; [rewrite Z.quot_1_r; lia |].
      destruct (Z.eq_dec d (-1)) as [-> | Hn2]; [| nia].
      specialize (Hm eq_refl). change (-1) with (- (1)).
      rewrite Z.quot_opp_r, Z.quot_1_r by lia. lia.
    - rewrite Z.abs_mul. lia.
    - replace (a - a ÷ d * d) with (Z.rem a d) by lia. exact Hr. }
  split.
  - exists {| Pos_x := Z.quot (Pos_x p) d; Pos_y := Z.quot (Pos_y p) d |}.
    unfold Pos_div. rewrite !Hdiv by (try assumption; intros; now apply Hmin).
    cbn [bind]. simpl.
    destruct (Hq (Pos_x p) Hpx) as (? & ? & ?); [intros; now apply Hmin |].
    destruct (Hq (Pos_y p) Hpy) as (? & ? & ?); [intros; now apply Hmin |].
    unfold Pos_wf. simpl. auto 10.
  - intros Hsx Hsy. unfold Pos_div, Pos_scale. simpl.
    rewrite !int32_id by assumption.
    rewrite !Hdiv; try assumption.
    + cbn [bind]. rewrite !(Z.mul_comm d), !Z.quot_mul by assumption. now destruct p.
    + intros ->. unfold is_int in *. lia.
    + intros ->. unfold is_int in *. lia.
Qed.

Lemma Pos_div_truncates_witness :
  Pos_div (Pos_scale (-3) (mkPos 7 (-5))) (-3) = Done (mkPos 7 (-5)).
Proof.
  apply (Pos_div_truncates (mkPos 7 (-5)) (-3)); try by_eval; lia.
Defined.

(** ** Pos: equality and order *)

Lemma Pos_eqb_eq (p q : Pos) : Pos_eqb p q = true <-> p = q.
Proof.
  unfold Pos_eqb. rewrite andb_true_iff, !Z.eqb_eq.
  destruct p, q; simpl. split; [intros [-> ->]; reflexivity | intros H; now inversion H].
Qed.

(** X10: [operator==] decides equality of points, [operator!=] is its
    negation, and two points are equal exactly when neither is below the
    other: the equivalence of the order used for map keys is [operator==]. *)
Theorem Pos_eqb_order (p q : Pos) :
  Pos_wf p -> Pos_wf q ->
  (Pos_eqb p q = true <-> p = q) /\
  Pos_neqb p q = negb (Pos_eqb p q) /\
  Pos_eqb p q = negb (Pos_lt p q) && negb (Pos_lt q p).
Proof.
  intros Hp Hq. split; [apply Pos_eqb_eq | split; [reflexivity |]].
  unfold Pos_lt.
  destruct (Pos_eqb p q) eqn:He.
  - apply Pos_eqb_eq in He. subst q. now rewrite Z.ltb_irrefl.
  - assert (Hk : Pos_key p <> Pos_key q).
    { intros Hk. apply Pos_key_inj in Hk; try assumption.
      apply Pos_eqb_eq in Hk. congruence. }
    destruct (Z.ltb_spec (Pos_key p) (Pos_key q)), (Z.ltb_spec (Pos_key q) (Pos_key p));
      simpl; try reflexivity; lia.
Qed.

Lemma Pos_eqb_order_witness :
  Pos_eqb (mkPos (-1) 4) (mkPos (-1) 4)
  = negb (Pos_lt (mkPos (-1) 4) (mkPos (-1) 4)) && negb (Pos_lt (mkPos (-1) 4) (mkPos (-1) 4)).
Proof.
  apply (Pos_eqb_order (mkPos (-1) 4) (mkPos (-1) 4)); by_eval.
Defined.

(** X11: between two points whose [x] have the same sign and whose [y]
    have the same sign, [operator<] is the lexicographic order on the
    signed coordinates. *)
Theorem Pos_lt_lex_same_sign (p q : Pos) :
  Pos_wf p -> Pos_wf q ->
  (Pos_x p < 0 <-> Pos_x q < 0) -> (Pos_y p < 0 <-> Pos_y q < 0) ->
  Pos_lt p q = lex_lt p q.
Proof.
  intros [Hpx Hpy] [Hqx Hqy] Hsx Hsy.
  unfold Pos_lt, lex_lt. rewrite !Pos_key_arith.
  rewrite !u32_of_int by assumption.
  unfold is_int in *.
  destruct (Z.ltb_spec (Pos_x p) (Pos_x q)), (Z.eqb_spec (Pos_x p) (Pos_x q)),
    (Z.ltb_spec (Pos_y p) (Pos_y q)); simpl;
    repeat case_decide;
    match goal with
    | |- (?a <? ?b) = true => apply Z.ltb_lt
    | |- (?a <? ?b) = false => apply Z.ltb_ge
    end; lia.
Qed.

Lemma Pos_lt_lex_same_sign_witness :
  Pos_lt (mkPos (-5) 3) (mkPos (-2) 1) = lex_lt (mkPos (-5) 3) (mkPos (-2) 1).
Proof.
  apply (Pos_lt_lex_same_sign (mkPos (-5) 3) (mkPos (-2) 1)); by_eval.
Defined.

(** ** PixelBase: the alpha bit of a packed pixel *)

(** The alpha test of the ARGB1555 layout reads bit 15. *)
Lemma has_alpha_Pixel p : has_alpha Pixel p <-> Z.testbit p 15 = true.
Proof.
  unfold has_alpha. change (alpha_mask Pixel) with (2 ^ 15). split.
  - intros Hne. destruct (Z.testbit p 15) eqn:E; [reflexivity |].
    exfalso. apply Hne. apply Z.bits_inj'. intros k Hk.
    rewrite Z.land_spec, Z.pow2_bits_eqb, Z.bits_0 by lia.
    destruct (Z.eqb_spec 15 k) as [<- | Hne']; [now rewrite E | apply andb_false_r].
  - intros Ht Hz.
    assert (Hb : Z.testbit (Z.land p (2 ^ 15)) 15 = true)
      by (rewrite Z.land_spec, Ht, Z.pow2_bits_true by lia; reflexivity).
    rewrite Hz, Z.bits_0 in Hb. discriminate.
Qed.

(** Bit 15 of what [ARGB] packs, for any arguments. *)
Lemma ARGB_Pixel_bit15 a r g b :
  Z.testbit (ARGB Pixel a r g b) 15
  = Z.testbit a 7 || Z.testbit r 8 || Z.testbit g 13 || Z.testbit b 18.
Proof.
  unfold ARGB, to_T, u32. simpl T_bits.
  change ((8 - red_bits Pixel) mod 2 ^ 32) with 3.
  change ((8 - green_bits Pixel) mod 2 ^ 32) with 3.
  change ((8 - blue_bits Pixel) mod 2 ^ 32) with 3.
  change ((8 - alpha_bits Pixel) mod 2 ^ 32) with 7.
  simpl alpha_shift. simpl red_shift. simpl green_shift. simpl blue_shift.
  rewrite Z.testbit_mod_pow2, !Z.lor_spec, !Z.testbit_mod_pow2 by lia.
  rewrite !Z.shiftl_spec, !Z.shiftr_spec by lia.
  reflexivity.
Qed.

Lemma testbit_top_of_byte a : 0 <= a <= 255 -> (Z.testbit a 7 = true <-> 128 <= a).
Proof.
  intros Ha. rewrite Z.testbit_true by lia.
  change (2 ^ 7) with 128. split; intros H.
  - destruct (Z.lt_ge_cases a 128) as [Hlt | Hge]; [| assumption].
    rewrite Z.div_small, Z.mod_0_l in H by lia. discriminate.
  - replace a with (a - 128 + 1 * 128) by lia.
    rewrite Z.div_add, Z.div_small by lia. reflexivity.
Qed.

Lemma testbit_above_byte v k : 0 <= v <= 255 -> 8 <= k -> Z.testbit v k = false.
Proof.
  intros Hv Hk. rewrite <- (Z.mod_small v (2 ^ 8)) by lia.
  apply Z.mod_pow2_bits_high. lia.
Qed.

(** X12: a pixel packed from 8-bit channels passes the alpha test exactly
    when [a >= 128]; so [set_if_alpha] with [ARGB(a,r,g,b)] replaces the
    destination when [a >= 128] and keeps it otherwise. *)
Theorem ARGB_alpha_test (a r g b d : Z) :
  0 <= a <= 255 -> 0 <= r <= 255 -> 0 <= g <= 255 -> 0 <= b <= 255 ->
  (has_alpha Pixel (ARGB Pixel a r g b) <-> 128 <= a) /\
  set_if_alpha Pixel d (ARGB Pixel a r g b)
  = if decide (128 <= a) then ARGB Pixel a r g b else d.
Proof.
  intros Ha Hr Hg Hb.
  assert (Hiff : has_alpha Pixel (ARGB Pixel a r g b) <-> 128 <= a).
  { rewrite has_alpha_Pixel, ARGB_Pixel_bit15.
    rewrite (testbit_above_byte r 8), (testbit_above_byte g 13),
      (testbit_above_byte b 18), !orb_false_r by lia.
    now apply testbit_top_of_byte. }
  split; [exact Hiff |].
  rewrite set_if_alpha_composite. unfold composite_pixel.
  fold (has_alpha Pixel (ARGB Pixel a r g b)).
  case_decide as H1; case_decide as H2; try reflexivity; tauto.
Qed.

Lemma ARGB_alpha_test_witness :
  set_if_alpha Pixel 5 (ARGB Pixel 127 255 255 255) = 5 /\
  set_if_alpha Pixel 5 (ARGB Pixel 128 0 0 0) = ARGB Pixel 128 0 0 0.
Proof.
  split.
  - rewrite (proj2 (ARGB_alpha_test 127 255 255 255 5 ltac:(lia) ltac:(lia)
                      ltac:(lia) ltac:(lia))). reflexivity.
  - reflexivity.
Defined.

(** X13: [ARGB] does not clamp its arguments: for any arguments the
    packed pixel passes the alpha test exactly when bit 7 of
    [a], bit 8 of [r], bit 13 of [g] or bit 18 of [b] is set; a red value in
    [256 .. 511] sets the alpha bit whatever [a] is. *)
Theorem ARGB_wide_channel_spills (a r g b : Z) :
  (has_alpha Pixel (ARGB Pixel a r g b) <->
   Z.testbit a 7 || Z.testbit r 8 || Z.testbit g 13 || Z.testbit b 18 = true) /\
  (256 <= r < 512 -> has_alpha Pixel (ARGB Pixel a r g b)).
Proof.
  assert (Hiff : has_alpha Pixel (ARGB Pixel a r g b) <->
                 Z.testbit a 7 || Z.testbit r 8 || Z.testbit g 13 || Z.testbit b 18 = true)
    by now rewrite has_alpha_Pixel, ARGB_Pixel_bit15.
  split; [exact Hiff |].
  intros Hr. apply Hiff.
  assert (H8 : Z.testbit r 8 = true).
  { rewrite Z.testbit_true by lia. change (2 ^ 8) with 256.
    replace r with (r - 256 + 1 * 256) by lia.
    rewrite Z.div_add, Z.div_small by lia. reflexivity. }
  rewrite H8. now rewrite orb_true_r.
Qed.

Lemma ARGB_wide_channel_spills_witness : has_alpha Pixel (ARGB Pixel 0 256 0 0).
Proof.
  apply (ARGB_wide_channel_spills 0 256 0 0). lia.
Defined.

(** X14: a pixel packed from 8-bit channels converts to [false] exactly
    when every channel quantises to zero: [a < 128] and [r], [g], [b] below
    8. *)
Theorem ARGB_bool (a r g b : Z) :
  0 <= a <= 255 -> 0 <= r <= 255 -> 0 <= g <= 255 -> 0 <= b <= 255 ->
  (pixel_bool (ARGB Pixel a r g b) = false <-> a < 128 /\ r < 8 /\ g < 8 /\ b < 8).
Proof.
  intros Ha Hr Hg Hb. unfold pixel_bool.
  rewrite negb_false_iff, Z.eqb_eq, ARGB_Pixel_arith by assumption.
  change (2 ^ 7) with 128. change (2 ^ 3) with 8. change (2 ^ 15) with 32768.
  change (2 ^ 10) with 1024. change (2 ^ 5) with 32.
  Z.to_euclidean_division_equations. lia.
Qed.

Lemma ARGB_bool_witness : pixel_bool (ARGB Pixel 127 7 7 7) = false.
Proof.
  apply (ARGB_bool 127 7 7 7); lia.
Defined.

(** X15: masking a pixel packed from 8-bit channels with [rgb_mask] is
    packing the same colour with alpha 0. *)
Theorem ARGB_masked (a r g b : Z) :
  0 <= a <= 255 -> 0 <= r <= 255 -> 0 <= g <= 255 -> 0 <= b <= 255 ->
  pixel_and Pixel (ARGB Pixel a r g b) (rgb_mask Pixel) = ARGB Pixel 0 r g b.
Proof.
  intros Ha Hr Hg Hb. unfold pixel_and, to_T. simpl T_bits.
  rewrite (ARGB_Pixel_arith a r g b), (ARGB_Pixel_arith 0 r g b) by (assumption || lia).
  change (rgb_mask Pixel) with (Z.ones 15). rewrite Z.land_ones by lia.
  change (0 / 2 ^ 7 * 2 ^ 15) with 0. rewrite Z.add_0_l.
  assert (Hr' : 0 <= r / 2 ^ 3 < 32)
    by (split; [apply Z.div_pos | apply Z.div_lt_upper_bound]; lia).
  assert (Hg' : 0 <= g / 2 ^ 3 < 32)
    by (split; [apply Z.div_pos | apply Z.div_lt_upper_bound]; lia).
  assert (Hb' : 0 <= b / 2 ^ 3 < 32)
    by (split; [apply Z.div_pos | apply Z.div_lt_upper_bound]; lia).
  rewrite Z.add_comm, Z.mod_add by lia.
  rewrite (Z.mod_small _ (2 ^ 15)) by lia.
  apply Z.mod_small. lia.
Qed.

Lemma ARGB_masked_witness :
  pixel_and Pixel (ARGB Pixel 255 200 100 50) (rgb_mask Pixel) = ARGB Pixel 0 200 100 50.
Proof.
  apply (ARGB_masked 255 200 100 50); lia.
Defined.

(** X16: the two masks split a 16-bit pixel without loss: or-ing its
    colour part and its alpha part gives the pixel back. *)
Theorem pixel_split_merge (p : Z) :
  is_u16 p ->
  pixel_or Pixel (pixel_and Pixel p (rgb_mask Pixel)) (pixel_and Pixel p (alpha_mask Pixel)) = p.
Proof.
  intros Hp. unfold pixel_or, pixel_and, to_T. simpl T_bits.
  change (rgb_mask Pixel) with (Z.ones 15). change (alpha_mask Pixel) with (2 ^ 15).
  apply Z.bits_inj'. intros k Hk.
  rewrite Z.testbit_mod_pow2, Z.lor_spec, !Z.testbit_mod_pow2, !Z.land_spec by lia.
  rewrite Z.testbit_ones_nonneg, Z.pow2_bits_eqb by lia.
  destruct (Z.ltb_spec k 16) as [H16 | H16].
  - destruct (Z.ltb_spec k 15), (Z.eqb_spec 15 k); try lia;
      destruct (Z.testbit p k); reflexivity.
  - now rewrite (testbit_above_u16 p k) by assumption.
Qed.

Lemma pixel_split_merge_witness :
  pixel_or Pixel (pixel_and Pixel 0x8421 (rgb_mask Pixel))
                 (pixel_and Pixel 0x8421 (alpha_mask Pixel)) = 0x8421.
Proof.
  apply (pixel_split_merge 0x8421). by_eval.
Defined.

(** ** The compositor: layers, extremes, prefixes and overruns *)


Section Compositor.
Context (P : PixelBase).

Lemma set_if_alpha_assoc d s1 s2 :
  set_if_alpha P (set_if_alpha P d s1) s2 = set_if_alpha P d (set_if_alpha P s1 s2).
Proof.
  unfold set_if_alpha.
  destruct (Z.land s2 (alpha_mask P) =? 0) eqn:E2; simpl; [reflexivity |].
  now rewrite E2.
Qed.

Lemma composite_assoc (dst a b : list Z) :
  zip_with (set_if_alpha P) (zip_with (set_if_alpha P) dst a) b
  = zip_with (set_if_alpha P) dst (zip_with (set_if_alpha P) a b).
Proof.
  revert a b. induction dst as [| d dst IH]; intros [| x a] [| y b]; simpl;
    try reflexivity.
  now rewrite set_if_alpha_assoc, IH.
Qed.

Lemma composite_transparent (dst src : list Z) :
  length dst = length src -> Forall (fun s => ~ has_alpha P s) src ->
  zip_with (set_if_alpha P) dst src = dst.
Proof.
  revert src. induction dst as [| d dst IH]; intros [| s src] Hlen Hall;
    try discriminate; [reflexivity |].
  apply Forall_cons in Hall as [Hs Hall]. simpl.
  rewrite IH by (simpl in Hlen; auto; lia). f_equal.
  unfold set_if_alpha, has_alpha in *.
  destruct (Z.eqb_spec (Z.land s (alpha_mask P)) 0); [reflexivity | contradiction].
Qed.

Lemma composite_opaque (dst src : list Z) :
  length dst = length src -> Forall (has_alpha P) src ->
  zip_with (set_if_alpha P) dst src = src.
Proof.
  revert src. induction dst as [| d dst IH]; intros [| s src] Hlen Hall;
    try discriminate; [reflexivity |].
  apply Forall_cons in Hall as [Hs Hall]. simpl.
  rewrite IH by (simpl in Hlen; auto; lia). f_equal.
  unfold set_if_alpha, has_alpha in *.
  destruct (Z.eqb_spec (Z.land s (alpha_mask P)) 0); [contradiction | reflexivity].
Qed.

(** The scalar loop on the first [pix] elements of longer buffers. *)
Lemma set_line_loop_prefix (pix : nat) (src : list Z) (fuel : nat) :
  forall (x : nat) (dst : list Z),
    (pix <= length dst)%nat -> (pix <= length src)%nat -> Z.of_nat pix < 2 ^ 32 ->
    (x <= pix)%nat -> (pix - x < fuel)%nat ->
    set_line_loop P fuel (Z.of_nat x) (Z.of_nat pix) dst src =
      Done (take x dst
              ++ zip_with (set_if_alpha P) (take (pix - x) (drop x dst))
                                           (take (pix - x) (drop x src))
              ++ drop pix dst).
Proof.
  induction fuel as [| fuel IH]; intros x dst Hd Hs Hpix Hx Hfuel; [lia |].
  simpl. destruct (Z.ltb_spec (Z.of_nat x) (Z.of_nat pix)) as [Hlt | Hge].
  - destruct (lookup_lt_is_Some_2 src x ltac:(lia)) as [s Hsx].
    destruct (lookup_lt_is_Some_2 dst x ltac:(lia)) as [d Hdx].
    rewrite (read_Done _ _ _ Hsx), (read_Done _ _ _ Hdx). cbn [bind].
    rewrite write_Done by lia. cbn [bind].
    rewrite u32_id by (unfold is_u32; lia).
    replace (Z.of_nat x + 1) with (Z.of_nat (S x)) by lia.
    rewrite IH by (rewrite ?length_insert; lia).
    rewrite take_S_insert by lia.
    rewrite !drop_insert_lt by lia.
    replace (pix - x)%nat with (S (pix - S x)) by lia.
    rewrite (drop_S dst _ _ Hdx), (drop_S src _ _ Hsx). simpl.
    now rewrite <- app_assoc.
  - assert (x = pix) by lia. subst x.
    rewrite Nat.sub_diag. simpl. now rewrite take_drop.
Qed.


End Compositor.

(** X17: layers can be flattened first: compositing [b] over the result
    of compositing [a] over [dst] leaves what compositing ([b] over [a])
    over [dst] leaves. *)
Theorem set_line_if_alpha_layers
  (P : PixelBase) (n : nat) (dst a b : list Z) (fuel : nat) :
  length dst = n -> length a = n -> length b = n ->
  Z.of_nat n < 2 ^ 32 -> (n < fuel)%nat ->
  exists d1 ab out : list Z,
    set_line_if_alpha P fuel dst a (Z.of_nat n) = Done d1 /\
    set_line_if_alpha P fuel d1 b (Z.of_nat n) = Done out /\
    set_line_if_alpha P fuel a b (Z.of_nat n) = Done ab /\
    set_line_if_alpha P fuel dst ab (Z.of_nat n) = Done out.
Proof.
  intros Hd Ha Hb Hn Hfuel.
  exists (zip_with (set_if_alpha P) dst a), (zip_with (set_if_alpha P) a b),
    (zip_with (set_if_alpha P) (zip_with (set_if_alpha P) dst a) b).
  repeat split.
  - now apply set_line_if_alpha_spec.
  - apply set_line_if_alpha_spec; rewrite ?length_zip_with; lia.
  - now apply set_line_if_alpha_spec.
  - rewrite composite_assoc.
    apply set_line_if_alpha_spec; rewrite ?length_zip_with; lia.
Qed.

Lemma set_line_if_alpha_layers_witness :
  exists d1 ab out : list Z,
    set_line_if_alpha Pixel 3 [1; 2] [0x8001; 3] 2 = Done d1 /\
    set_line_if_alpha Pixel 3 d1 [4; 0x8005] 2 = Done out /\
    set_line_if_alpha Pixel 3 [0x8001; 3] [4; 0x8005] 2 = Done ab /\
    set_line_if_alpha Pixel 3 [1; 2] ab 2 = Done out.
Proof.
  apply (set_line_if_alpha_layers Pixel 2 [1; 2] [0x8001; 3] [4; 0x8005] 3);
    try reflexivity; lia.
Defined.

(** X18: a source without any alpha leaves the destination as it is, and
    a source with alpha everywhere is copied over it. *)
Theorem set_line_if_alpha_extremes
  (P : PixelBase) (n : nat) (dst src : list Z) (fuel : nat) :
  length dst = n -> length src = n -> Z.of_nat n < 2 ^ 32 -> (n < fuel)%nat ->
  (Forall (fun s => ~ has_alpha P s) src ->
   set_line_if_alpha P fuel dst src (Z.of_nat n) = Done dst) /\
  (Forall (has_alpha P) src ->
   set_line_if_alpha P fuel dst src (Z.of_nat n) = Done src).
Proof.
  intros Hd Hs Hn Hfuel.
  rewrite (set_line_if_alpha_spec P n dst src fuel) by assumption.
  split; intros Hall; f_equal.
  - apply composite_transparent; [lia | assumption].
  - apply composite_opaque; [lia | assumption].
Qed.

Lemma set_line_if_alpha_extremes_witness :
  set_line_if_alpha Pixel 3 [1; 2] [0x8001; 0xFFFF] 2 = Done [0x8001; 0xFFFF].
Proof.
  apply (set_line_if_alpha_extremes Pixel 2 [1; 2] [0x8001; 0xFFFF] 3);
    try reflexivity; try lia.
  repeat constructor; by_eval.
Defined.

(** X19: with a count [pix] below the lengths of the buffers,
    [set_line_if_alpha] composites the first [pix] elements and leaves the
    rest of the destination, and its length, as they were. *)
Theorem set_line_if_alpha_prefix
  (P : PixelBase) (pix : nat) (dst src : list Z) (fuel : nat) :
  (pix <= length dst)%nat -> (pix <= length src)%nat ->
  Z.of_nat pix < 2 ^ 32 -> (pix < fuel)%nat ->
  exists dst' : list Z,
    set_line_if_alpha P fuel dst src (Z.of_nat pix) = Done dst' /\
    length dst' = length dst /\
    (forall (i : nat) (d s : Z),
       (i < pix)%nat -> dst !! i = Some d -> src !! i = Some s ->
       dst' !! i = Some (if decide (has_alpha P s) then s else d)) /\
    (forall i : nat, (pix <= i)%nat -> dst' !! i = dst !! i).
Proof.
  intros Hd Hs Hpix Hfuel.
  exists (zip_with (set_if_alpha P) (take pix dst) (take pix src) ++ drop pix dst).
  assert (Hz : length (zip_with (set_if_alpha P) (take pix dst) (take pix src)) = pix)
    by (rewrite length_zip_with, !length_take; lia).
  repeat split.
  - unfold set_line_if_alpha. change 0 with (Z.of_nat 0).
    rewrite (set_line_loop_prefix P pix src fuel 0 dst) by lia.
    now rewrite Nat.sub_0_r.
  - rewrite length_app, Hz, length_drop. lia.
  - intros i d s Hi Hdi Hsi.
    rewrite lookup_app_l by lia.
    rewrite lookup_zip_with, !lookup_take_lt, Hdi, Hsi by assumption. simpl.
    now rewrite set_if_alpha_composite.
  - intros i Hi. rewrite lookup_app_r by lia.
    rewrite Hz, lookup_drop. f_equal. lia.
Qed.

Lemma set_line_if_alpha_prefix_witness :
  exists dst' : list Z,
    set_line_if_alpha Pixel 2 [1; 2; 3] [0x8001; 0x8002] 1 = Done dst' /\
    dst' !! 1%nat = Some 2.
Proof.
  destruct (set_line_if_alpha_prefix Pixel 1 [1; 2; 3] [0x8001; 0x8002] 2)
    as (dst' & Hrun & _ & _ & Hrest); [simpl; lia | simpl; lia | lia | lia |].
  exists dst'. split; [exact Hrun |].
  rewrite (Hrest 1%nat) by lia. reflexivity.
Defined.



Lemma masked_has_no_alpha (s : Z) :
  ~ has_alpha Pixel (pixel_and Pixel s (rgb_mask Pixel)).
Proof.
  rewrite has_alpha_Pixel. unfold pixel_and, to_T. simpl T_bits.
  change (rgb_mask Pixel) with (Z.ones 15).
  rewrite Z.testbit_mod_pow2, Z.land_spec, Z.testbit_ones_nonneg by lia.
  change (15 <? 15) with false. rewrite andb_false_r. simpl. discriminate.
Qed.

(** X21: a source that went through [mask_rgb] is transparent: compositing
    it leaves the destination as it was. *)
Theorem masked_source_is_transparent (n : nat) (dst src : list Z) (fuel : nat) :
  length dst = n -> length src = n -> Z.of_nat n < 2 ^ 32 -> (n < fuel)%nat ->
  exists src' : list Z,
    mask_rgb Pixel src (Z.of_nat n) = Done src' /\
    set_line_if_alpha Pixel fuel dst src' (Z.of_nat n) = Done dst.
Proof.
  intros Hd Hs Hn Hfuel.
  exists ((fun pix => pixel_and Pixel pix (rgb_mask Pixel)) <$> src). split.
  - rewrite mask_rgb_spec by lia.
    now rewrite take_ge, drop_ge, app_nil_r by lia.
  - rewrite (set_line_if_alpha_spec Pixel n) by (rewrite ?length_fmap; lia).
    f_equal. apply composite_transparent; [rewrite length_fmap; lia |].
    apply Forall_fmap, Forall_forall. intros s _. apply masked_has_no_alpha.
Qed.

Lemma masked_source_is_transparent_witness :
  exists src' : list Z,
    mask_rgb Pixel [0xFFFF; 0x8001] 2 = Done src' /\
    set_line_if_alpha Pixel 3 [1; 2] src' 2 = Done [1; 2].
Proof.
  apply (masked_source_is_transparent 2 [1; 2] [0xFFFF; 0x8001] 3);
    try reflexivity; lia.
Defined.

(** X22: with a size below the length of the buffer, [mask_rgb] masks
    the first [size] elements and leaves the rest of the buffer, and its
    length, as they were. *)
Theorem mask_rgb_prefix (P : PixelBase) (size : nat) (dst : list Z) :
  (size <= length dst)%nat ->
  exists dst' : list Z,
    mask_rgb P dst (Z.of_nat size) = Done dst' /\
    length dst' = length dst /\
    (forall (i : nat) (d : Z),
       (i < size)%nat -> dst !! i = Some d ->
       dst' !! i = Some (pixel_and P d (rgb_mask P))) /\
    (forall i : nat, (size <= i)%nat -> dst' !! i = dst !! i).
Proof.
  intros Hs.
  exists (((fun pix => pixel_and P pix (rgb_mask P)) <$> take size dst) ++ drop size dst).
  assert (Hz : length ((fun pix => pixel_and P pix (rgb_mask P)) <$> take size dst) = size)
    by (rewrite length_fmap, length_take; lia).
  repeat split.
  - now apply mask_rgb_spec.
  - rewrite length_app, Hz, length_drop. lia.
  - intros i d Hi Hdi. rewrite lookup_app_l by lia.
    now rewrite list_lookup_fmap, lookup_take_lt, Hdi by assumption.
  - intros i Hi. rewrite lookup_app_r by lia.
    rewrite Hz, lookup_drop. f_equal. lia.
Qed.

Lemma mask_rgb_prefix_witness :
  exists dst' : list Z,
    mask_rgb Pixel [0xFFFF; 0x8001; 0x8002] 2 = Done dst' /\
    dst' !! 2%nat = Some 0x8002.
Proof.
  destruct (mask_rgb_prefix Pixel 2 [0xFFFF; 0x8001; 0x8002])
    as (dst' & Hrun & _ & _ & Hrest); [simpl; lia |].
  exists dst'. split; [exact Hrun |].
  rewrite (Hrest 2%nat) by lia. reflexivity.
Defined.

(** ** Rect: the overlap test *)

(** X23: [A & B] converts to [true] exactly when [A] and [B] share a
    pixel (edge sums and extents of the overlap representable in [int]). *)
Theorem Rect_and_bool_overlap (A B : Rect) :
  edge_sums_fit A B -> extents_fit A B ->
  (Rect_bool (Rect_and A B) = true <->
   exists px py : Z, covers A px py /\ covers B px py).
Proof.
  intros He Hx. rewrite (Rect_and_no_overflow A B He Hx).
  unfold intersection. case_decide as Hd.
  - split; [discriminate |].
    intros (px & py & Ha & Hb). exfalso.
    unfold covers, isect_left, isect_right, isect_top, isect_bottom in *. lia.
  - split; [intros _ | intros _].
    + exists (isect_left A B), (isect_top A B).
      unfold covers, isect_left, isect_right, isect_top, isect_bottom in *. lia.
    + unfold Rect_bool. simpl. apply andb_true_iff. rewrite !Z.ltb_lt. lia.
Qed.

Lemma Rect_and_bool_overlap_witness :
  Rect_bool (Rect_and (mkRect 0 0 4 4) (mkRect 10 10 4 4)) = true <->
  exists px py : Z, covers (mkRect 0 0 4 4) px py /\ covers (mkRect 10 10 4 4) px py.
Proof.
  apply (Rect_and_bool_overlap (mkRect 0 0 4 4) (mkRect 10 10 4 4)); by_eval.
Defined.
